(** * bark/srt_gen.py: subtitle timeline assembly and chunked export

    A shallow embedding of [src/bark/srt_gen.py] and the properties its
    specification states about it.

    Conventions of the embedding.

    - A Python [str] is a list of characters; a character is an [ascii],
      that is a code point below 256.  On that range Python's notion of
      white space ([str.isspace], used by [str.strip]) and of decimal digit
      (used by [int]) are exactly the finite tables written out below.
    - A Python [float] holding a time in seconds is an exact rational [Q]:
      rounding and overflow of binary floating point are outside the model,
      as they are in the specification's data model ("rational seconds"),
      and so is the exhaustion of memory by a very long silence.
    - An exception is a value of [exn]; a computation that may raise returns
      a [result].
    - The file system, the Bark synthesiser and the audio export are an
      external [World]; the calls made to it are recorded as a list of
      [event]s in program order.  The models are loaded when the module is
      imported ([preload_models()]), before any function below is called:
      that is not an event of a run. *)

From Stdlib Require Import List String Ascii Bool Arith ZArith QArith Qround
  Qminmax Lia Lqa DecimalString DecimalZ.
Import ListNotations.

Set Implicit Arguments.

(** ** Exceptions and results *)

Inductive exn : Type :=
| FileNotFoundError (msg : list ascii)
| ValueError
| ZeroDivisionError
| OSError (errno : nat)
| ExternalError (code : nat).

Inductive result (A : Type) : Type :=
| Ok (a : A)
| Raise (e : exn).

Arguments Ok {A} a.
Arguments Raise {A} e.

Definition rbind {A B} (r : result A) (k : A -> result B) : result B :=
  match r with
  | Ok a => k a
  | Raise e => Raise e
  end.

Declare Scope result_scope.
Delimit Scope result_scope with result.
Notation "x <-? r ;; k" := (rbind r (fun x => k))
  (at level 61, r at next level, right associativity) : result_scope.

(** ** Python strings *)

Module PyStr.

Definition str := list ascii.

(** A literal: [s "abc"] is the Python string ['abc']. *)
Definition s (x : string) : str := list_ascii_of_string x.

Definition nl : ascii := ascii_of_nat 10.

(** [str.isspace] on one character, code points below 256. *)
Definition isspace (c : ascii) : bool :=
  let n := nat_of_ascii c in
  ((9 <=? n) && (n <=? 13)) || ((28 <=? n) && (n <=? 31))
  || (n =? 32) || (n =? 133) || (n =? 160).

Fixpoint lstrip (x : str) : str :=
  match x with
  | c :: x' => if isspace c then lstrip x' else x
  | [] => []
  end.

Definition rstrip (x : str) : str := rev (lstrip (rev x)).

(** [x.strip()] *)
Definition strip (x : str) : str := rstrip (lstrip x).

Fixpoint starts_with (p x : str) : bool :=
  match p, x with
  | [], _ => true
  | a :: p', b :: x' => Ascii.eqb a b && starts_with p' x'
  | _ :: _, [] => false
  end.

(** [sub in x] *)
Fixpoint contains (sub x : str) : bool :=
  starts_with sub x
  || match x with
     | [] => false
     | _ :: x' => contains sub x'
     end.

Definition push (c : ascii) (parts : list str) : list str :=
  match parts with
  | [] => [[c]]
  | p :: ps => (c :: p) :: ps
  end.

(** [x.split(sep)] for a non-empty [sep]: the occurrences of [sep] are found
    from the left and do not overlap.  [skip] counts the characters of an
    occurrence that are still to be passed over. *)
Fixpoint split_from (sep : str) (skip : nat) (x : str) : list str :=
  match x with
  | [] => [[]]
  | c :: x' =>
      match skip with
      | S k => split_from sep k x'
      | O =>
          if starts_with sep x
          then [] :: split_from sep (List.length sep - 1) x'
          else push c (split_from sep 0 x')
      end
  end.

Definition split (sep x : str) : list str := split_from sep 0 x.

(** [sep.join(parts)] *)
Fixpoint join (sep : str) (parts : list str) : str :=
  match parts with
  | [] => []
  | [p] => p
  | p :: ps => p ++ sep ++ join sep ps
  end.

(** White space as [int] accepts it around a literal: the characters the
    interpreter maps to a blank before parsing.  The separators 28..31 are
    white space for [strip] but not for [int]. *)
Definition int_space (c : ascii) : bool :=
  let n := nat_of_ascii c in
  ((9 <=? n) && (n <=? 13)) || (n =? 32) || (n =? 133) || (n =? 160).

Definition digit_value (c : ascii) : option Z :=
  let n := nat_of_ascii c in
  if (48 <=? n) && (n <=? 57) then Some (Z.of_nat (n - 48)) else None.

Definition is_digit (c : ascii) : bool :=
  match digit_value c with Some _ => true | None => false end.

Definition underscore : ascii := ascii_of_nat 95.
Definition plus_sign : ascii := ascii_of_nat 43.
Definition minus_sign : ascii := ascii_of_nat 45.

(** The digits of a decimal literal: at least one digit, single underscores
    allowed between digits only.  [after_digit] tells whether the previous
    character was a digit. *)
Fixpoint digits_value (acc : Z) (after_digit : bool) (x : str) : option Z :=
  match x with
  | [] => if after_digit then Some acc else None
  | c :: x' =>
      match digit_value c with
      | Some d => digits_value (10 * acc + d) true x'
      | None =>
          if Ascii.eqb c underscore && after_digit
          then digits_value acc false x'
          else None
      end
  end.

Fixpoint int_lstrip (x : str) : str :=
  match x with
  | c :: x' => if int_space c then int_lstrip x' else x
  | [] => []
  end.

Definition int_strip (x : str) : str := rev (int_lstrip (rev (int_lstrip x))).

(** [int(x)] in base 10.  The interpreter's configurable limit on the number
    of digits of a literal is not part of the model. *)
Definition py_int (x : str) : result Z :=
  let body := int_strip x in
  let signed :=
    match body with
    | c :: rest =>
        if Ascii.eqb c minus_sign then option_map Z.opp (digits_value 0 false rest)
        else if Ascii.eqb c plus_sign then digits_value 0 false rest
        else digits_value 0 false body
    | [] => None
    end in
  match signed with
  | Some z => Ok z
  | None => Raise ValueError
  end.

(** [str(n)] for an integer. *)
Definition py_str_of_int (n : Z) : str := s (NilZero.string_of_int (Z.to_int n)).

End PyStr.
Import PyStr.

(** ** Timed cues and the parser *)

(** One element of [subtitle_entries]: the dictionary with the keys ["idx"],
    ["start_time"], ["end_time"] and ["text"]. *)
Record entry : Type := {
  idx : str;
  start_time : Q;
  end_time : Q;
  text : str
}.

Definition arrow : str := s " --> ".

(** [time_to_seconds(time_str)]: both unpackings need the exact number of
    parts and raise [ValueError] otherwise, as [int] does on a bad literal. *)
Definition time_to_seconds (time_str : str) : result Q :=
  match split (s ":") time_str with
  | [hours; minutes; seconds] =>
      match split (s ",") seconds with
      | [seconds; milliseconds] =>
          (h <-? py_int hours ;;
           m <-? py_int minutes ;;
           sec <-? py_int seconds ;;
           ms <-? py_int milliseconds ;;
           Ok (inject_Z (h * 3600 + m * 60 + sec) + inject_Z ms / 1000)%Q)%result
      | _ => Raise ValueError
      end
  | _ => Raise ValueError
  end.

(** [lines = block.strip().split("\n")] *)
Definition block_lines (block : str) : list str := split [nl] (strip block).

(** [start_time, end_time = time_range.split(" --> ")] and the two
    conversions. *)
Definition parse_time_range (time_range : str) : result (Q * Q) :=
  match split arrow time_range with
  | [start_time; end_time] =>
      (st <-? time_to_seconds start_time ;;
       en <-? time_to_seconds end_time ;;
       Ok (st, en))%result
  | _ => Raise ValueError
  end.

(** The body of the loop of [parse_srt] on one block: [Ok None] is
    [continue], [Ok (Some e)] appends [e] to [subtitle_entries]. *)
Definition parse_block (block : str) : result (option entry) :=
  let lines := block_lines block in
  if (List.length lines <? 3)%nat then Ok None
  else
    let idx := strip (nth 0 lines []) in
    let time_range := strip (nth 1 lines []) in
    let text := strip (join (s " ") (skipn 2 lines)) in
    if negb (contains arrow time_range) then Ok None
    else
      (times <-? parse_time_range time_range ;;
       Ok (Some {| idx := idx; start_time := fst times;
                   end_time := snd times; text := text |}))%result.

(** [for block in subtitle_blocks: ...], threading [subtitle_entries]. *)
Fixpoint parse_blocks (subtitle_blocks : list str) (subtitle_entries : list entry)
  : result (list entry) :=
  match subtitle_blocks with
  | [] => Ok subtitle_entries
  | block :: rest =>
      match parse_block block with
      | Raise e => Raise e
      | Ok None => parse_blocks rest subtitle_entries
      | Ok (Some e) => parse_blocks rest (subtitle_entries ++ [e])
      end
  end.

Definition subtitle_blocks (content : str) : list str :=
  split [nl; nl] (strip content).

(** [parse_srt] once the file has been read into [content]. *)
Definition parse_content (content : str) : result (list entry) :=
  parse_blocks (subtitle_blocks content) [].

(** ** Audio *)

(** A [pydub.AudioSegment] of one channel and 16-bit samples at the rate
    [SAMPLE_RATE]: its frames.  [+] on segments is [++]. *)
Definition AudioSegment := list Z.

(** The array of samples [generate_audio] returns. *)
Definition np_array := list Q.

(** [int(q)]: truncation towards zero. *)
Definition Qtrunc (q : Q) : Z := Z.quot (Qnum q) (Zpos (Qden q)).

(** [round(q)]: to the nearest integer, ties to the even one. *)
Definition py_round (q : Q) : Z :=
  let f := Qfloor q in
  match (q - inject_Z f ?= 1 # 2)%Q with
  | Lt => f
  | Gt => (f + 1)%Z
  | Eq => if Z.even f then f else (f + 1)%Z
  end.

(** [max(0, x)]: the first argument unless the second is greater. *)
Definition py_max0 (x : Q) : Q :=
  match (0 ?= x)%Q with
  | Lt => x
  | _ => 0%Q
  end.

(** [astype("int16")] of an integer value, wrapping around. *)
Definition wrap_int16 (z : Z) : Z := ((z + 32768) mod 65536 - 32768)%Z.

(** [numpy_array_to_audiosegment(np_array, sample_rate)]: the samples are
    scaled, cast to 16 bits, written as a WAV stream and read back. *)
Definition numpy_array_to_audiosegment (a : np_array) (sample_rate : positive)
  : AudioSegment :=
  map (fun x => wrap_int16 (Qtrunc (x * 32767)%Q)) a.

(** [AudioSegment.silent(duration, frame_rate)]:
    [int(frame_rate * (duration / 1000.0))] frames of zero. *)
Definition silent (duration : Q) (frame_rate : positive) : AudioSegment :=
  repeat 0%Z (Z.to_nat (Qtrunc (inject_Z (Zpos frame_rate) * (duration / 1000))%Q)).

(** [generate_silence(duration_ms, frame_rate)] *)
Definition generate_silence (duration_ms : Q) (frame_rate : positive)
  : AudioSegment :=
  silent duration_ms frame_rate.

(** [len(segment)]: its duration in milliseconds,
    [round(1000 * (frame_count / frame_rate))]. *)
Definition audio_len (frame_rate : positive) (a : AudioSegment) : Z :=
  py_round (1000 * (inject_Z (Z.of_nat (List.length a)) / inject_Z (Zpos frame_rate)))%Q.

(** ** The outside world *)

(** What [srt_gen.py] imports and calls: the constant [SAMPLE_RATE] of
    [bark.generation], the file system, [generate_audio] of [bark.api] and
    the export of a segment.  [read_text path] is what
    [open(path, 'r', encoding='utf-8').read()] returns or raises.  The
    synthesiser may answer differently each time it is asked, so its answer
    depends on the position of the cue it is called for. *)
Record World : Type := {
  SAMPLE_RATE : positive;
  path_exists : str -> bool;
  makedirs : str -> result unit;
  read_text : str -> result str;
  generate_audio : nat -> str -> str -> result np_array;
  export_wav : str -> AudioSegment -> result unit
}.

(** The calls made to the world and the lines printed, in program order.
    The progress bar of [tqdm] is not recorded. *)
Inductive event : Type :=
| EExists (path : str)
| EMakedirs (path : str)
| ERead (path : str)
| EGenerate (text history_prompt : str)
| EExport (path : str) (audio : AudioSegment)
| EPrintSaved (path : str)
| EPrintSavedFinal (path : str)
| EPrintComplete.

(** A computation: the events it performed and how it ended. *)
Definition M (A : Type) : Type := (list event * result A)%type.

Definition ret {A} (a : A) : M A := ([], Ok a).

Definition raise {A} (e : exn) : M A := ([], Raise e).

Definition bind {A B} (m : M A) (k : A -> M B) : M B :=
  match m with
  | (tr, Ok a) => let (tr', r) := k a in (tr ++ tr', r)
  | (tr, Raise e) => (tr, Raise e)
  end.

(** An external call: recorded when made, then it returns or raises. *)
Definition call {A} (ev : event) (r : result A) : M A := ([ev], r).

Declare Scope m_scope.
Delimit Scope m_scope with M.
Notation "x <- m ;; k" := (bind m (fun x => k))
  (at level 61, m at next level, right associativity) : m_scope.
Notation "m ;;; k" := (bind m (fun _ => k))
  (at level 61, right associativity) : m_scope.

(** [parse_srt(srt_file_path)]: opening or reading the file may raise. *)
Definition parse_srt (w : World) (srt_file_path : str) : M (list entry) :=
  (content <- call (ERead srt_file_path) (read_text w srt_file_path) ;;
   (nil, parse_content content))%M.

(** [os.path.join(a, b)] for POSIX paths. *)
Definition os_path_join (a b : str) : str :=
  if starts_with (s "/") b then b
  else if (match a with [] => true | _ => false end)
          || starts_with (s "/") (rev a)
       then a ++ b
       else a ++ s "/" ++ b.

(** [os.path.join(output_dir, f"output_part_{part_number}.wav")] *)
Definition output_path (output_dir : str) (part_number : Z) : str :=
  os_path_join output_dir (s "output_part_" ++ py_str_of_int part_number ++ s ".wav").

(** ** The timeline loop of [srt_to_audio] *)

(** The variables the loop threads from one cue to the next. *)
Record loop_state : Type := {
  final_audio : AudioSegment;
  previous_end_time : Q;
  part_number : Z
}.

(** The state before the first cue (lines 79 to 81). *)
Definition initial_state : loop_state :=
  {| final_audio := []; previous_end_time := 0%Q; part_number := 1%Z |}.

(** [max(0, (start_time - previous_end_time) * 1000)] *)
Definition silence_duration (start_time previous_end_time : Q) : Q :=
  py_max0 ((start_time - previous_end_time) * 1000)%Q.

Definition nonempty (x : str) : bool :=
  match x with [] => false | _ :: _ => true end.

Section Timeline.

Variable w : World.
Variables output_dir history_prompt : str.
Variable chunk_size : Z.

(** The body of the loop (lines 84 to 106) for the cue [e] at position
    [i]. *)
Definition loop_body (i : nat) (e : entry) (st : loop_state) : M loop_state :=
  let gap := silence_duration (start_time e) (previous_end_time st) in
  let audio := final_audio st ++ generate_silence gap (SAMPLE_RATE w) in
  (audio <- (if nonempty (strip (text e))
             then audio_np <- call (EGenerate (text e) history_prompt)
                                   (generate_audio w i (text e) history_prompt) ;;
                  ret (audio ++ numpy_array_to_audiosegment audio_np (SAMPLE_RATE w))
             else ret audio) ;;
   if (chunk_size =? 0)%Z then raise ZeroDivisionError
   else if ((Z.of_nat i + 1) mod chunk_size =? 0)%Z
   then
     let path := output_path output_dir (part_number st) in
     call (EExport path audio) (export_wav w path audio) ;;;
     call (EPrintSaved path) (Ok tt) ;;;
     ret {| final_audio := []; previous_end_time := end_time e;
            part_number := (part_number st + 1)%Z |}
   else
     ret {| final_audio := audio; previous_end_time := end_time e;
            part_number := part_number st |})%M.

(** [for idx, entry in enumerate(subtitles)], from position [i] on. *)
Fixpoint for_loop (i : nat) (subtitles : list entry) (st : loop_state)
  : M loop_state :=
  match subtitles with
  | [] => ret st
  | e :: rest => (st' <- loop_body i e st ;; for_loop (S i) rest st')%M
  end.

(** Lines 108 to 112: the remaining audio. *)
Definition save_remaining (st : loop_state) : M unit :=
  if (0 <? audio_len (SAMPLE_RATE w) (final_audio st))%Z
  then
    let path := output_path output_dir (part_number st) in
    (call (EExport path (final_audio st)) (export_wav w path (final_audio st)) ;;;
     call (EPrintSavedFinal path) (Ok tt))%M
  else ret tt.

(** Lines 79 to 114: what [srt_to_audio] does with the parsed subtitles. *)
Definition timeline (subtitles : list entry) : M unit :=
  (st <- for_loop 0 subtitles initial_state ;;
   save_remaining st ;;;
   call EPrintComplete (Ok tt))%M.

End Timeline.

(** [srt_to_audio(srt_file_path, output_dir, history_prompt, chunk_size)] *)
Definition srt_to_audio (w : World) (srt_file_path output_dir history_prompt : str)
  (chunk_size : Z) : M unit :=
  (found <- call (EExists srt_file_path) (Ok (path_exists w srt_file_path)) ;;
   if negb found
   then raise (FileNotFoundError (s "SRT file not found: " ++ srt_file_path))
   else
     call (EMakedirs output_dir) (makedirs w output_dir) ;;;
     subtitles <- parse_srt w srt_file_path ;;
     timeline w output_dir history_prompt chunk_size subtitles)%M.

(** The segments handed to the export, with their paths, in order. *)
Fixpoint exports (tr : list event) : list (str * AudioSegment) :=
  match tr with
  | [] => []
  | EExport path audio :: tr' => (path, audio) :: exports tr'
  | _ :: tr' => exports tr'
  end.

(** A world in which the synthesiser and the export never fail. *)
Definition reliable (w : World) : Prop :=
  (forall i t p, exists a, generate_audio w i t p = Ok a)
  /\ (forall p a, export_wav w p a = Ok tt).

(** The cue [e] with its start moved to [t]. *)
Definition with_start (t : Q) (e : entry) : entry :=
  {| idx := idx e; start_time := t; end_time := end_time e; text := text e |}.

(** ** What a run is expected to produce *)

(** The speech appended for the cue at position [i]: nothing when its text
    is blank. *)
Definition speech (w : World) (prompt : str) (i : nat) (e : entry) : AudioSegment :=
  if nonempty (strip (text e))
  then match generate_audio w i (text e) prompt with
       | Ok a => numpy_array_to_audiosegment a (SAMPLE_RATE w)
       | Raise _ => []
       end
  else [].

(** The audio one cue contributes when the cursor is at [prev]: the silence
    of its gap, then its speech. *)
Definition cue_audio (w : World) (prompt : str) (prev : Q) (i : nat) (e : entry)
  : AudioSegment :=
  generate_silence (silence_duration (start_time e) prev) (SAMPLE_RATE w)
  ++ speech w prompt i e.

(** The audio of consecutive cues, the first at position [i]. *)
Fixpoint run_audio (w : World) (prompt : str) (prev : Q) (i : nat) (cues : list entry)
  : AudioSegment :=
  match cues with
  | [] => []
  | e :: rest => cue_audio w prompt prev i e ++ run_audio w prompt (end_time e) (S i) rest
  end.

(** The cursor after consecutive cues. *)
Definition cursor_after (prev : Q) (cues : list entry) : Q :=
  last (map end_time cues) prev.

(** The calls to the synthesiser for consecutive cues. *)
Definition generate_events (prompt : str) (e : entry) : list event :=
  if nonempty (strip (text e)) then [EGenerate (text e) prompt] else [].

(** The units exported for consecutive full chunks, the first one starting
    at position [i] and numbered [part]. *)
Fixpoint chunk_exports (w : World) (dir prompt : str) (prev : Q) (i : nat) (part : Z)
  (chunks : list (list entry)) : list (str * AudioSegment) :=
  match chunks with
  | [] => []
  | ch :: rest =>
      (output_path dir part, run_audio w prompt prev i ch)
      :: chunk_exports w dir prompt (cursor_after prev ch) (i + List.length ch)
           (part + 1) rest
  end.

(** The part numbers [first], [first + 1], ... ([n] of them). *)
Fixpoint parts_from (first : Z) (n : nat) : list Z :=
  match n with
  | O => []
  | S n' => first :: parts_from (first + 1) n'
  end.

(** The paths of the exported units, in order. *)
Definition export_paths (tr : list event) : list str := map fst (exports tr).


(** A small world for concrete runs: every path exists, nothing fails, and
    the synthesiser answers with 48 samples (2 ms) whatever the text. *)
Definition demo_world : World :=
  {| SAMPLE_RATE := 24000;
     path_exists := fun _ => true;
     makedirs := fun _ => Ok tt;
     read_text := fun _ => Ok [];
     generate_audio := fun _ _ _ => Ok (repeat (1 # 2)%Q 48);
     export_wav := fun _ _ => Ok tt |}.

(** A cue that says nothing and takes no time. *)
Definition blank_cue : entry :=
  {| idx := s "0"; start_time := 0; end_time := 0; text := [] |}.

(** A cue that says "hi" and takes no time. *)
Definition hi_cue : entry :=
  {| idx := s "0"; start_time := 0; end_time := 0; text := s "hi" |}.

(** ** Well-formed timestamps *)

(** A non-empty string of decimal digits. *)
Definition digits (x : str) : Prop := x <> [] /\ Forall (fun c => is_digit c = true) x.

(** A field of exactly [n] decimal digits, as [HH] or [mmm]. *)
Definition field (n : nat) (x : str) : Prop :=
  List.length x = n /\ Forall (fun c => is_digit c = true) x.

(** The number a string of decimal digits denotes. *)
Definition decimal (x : str) : Z :=
  fold_left (fun acc c => (10 * acc + match digit_value c with Some d => d | None => 0 end)%Z)
    x 0%Z.

(** The text [H:M:S,ms] of a timestamp. *)
Definition timestamp (h m sec ms : str) : str :=
  h ++ s ":" ++ m ++ s ":" ++ sec ++ s "," ++ ms.

(** The seconds it denotes: [H*3600 + M*60 + S + ms/1000]. *)
Definition seconds_of (h m sec ms : str) : Q :=
  (inject_Z (decimal h * 3600 + decimal m * 60 + decimal sec)
   + inject_Z (decimal ms) / 1000)%Q.

(** The stripped second line of a block, [time_range] in [parse_srt]. *)
Definition time_range_of (block : str) : str := strip (nth 1 (block_lines block) []).

(** The cues of the blocks that yield one, in the order of the blocks. *)
Definition kept_entries (blocks : list str) : list entry :=
  flat_map (fun b => match parse_block b with Ok (Some e) => [e] | _ => [] end) blocks.



(** A world with no file at all. *)
Definition empty_world : World :=
  {| SAMPLE_RATE := SAMPLE_RATE demo_world;
     path_exists := fun _ => false;
     makedirs := makedirs demo_world;
     read_text := fun _ => Raise (OSError 2);
     generate_audio := generate_audio demo_world;
     export_wav := export_wav demo_world |}.

(** The cues of the two-cue scenario. *)
Definition cue_A : entry :=
  {| idx := s "1"; start_time := 0; end_time := 1; text := s "hi" |}.

Definition cue_B : entry :=
  {| idx := s "2"; start_time := 3; end_time := 4; text := s "" |}.

(** A cue that starts before the cursor of a state that has seen [cue_B]. *)
Definition early_cue : entry :=
  {| idx := s "3"; start_time := 2; end_time := 5 # 2; text := s "late" |}.

Definition state_after_B : loop_state :=
  {| final_audio := []; previous_end_time := 4; part_number := 1 |}.

(** A block of two lines. *)
Definition short_block : str := s "junk" ++ [nl] ++ s "only two lines".


(** A file of two well-formed blocks 2 ms apart, and a world that holds
    it. *)
Definition two_block_srt : str :=
  s "1" ++ [nl] ++ s "00:00:00,000 --> 00:00:00,001" ++ [nl] ++ s "hi" ++ [nl; nl]
  ++ s "2" ++ [nl] ++ s "00:00:00,003 --> 00:00:00,004" ++ [nl] ++ s "yo" ++ [nl].

Definition two_block_world : World :=
  {| SAMPLE_RATE := SAMPLE_RATE demo_world;
     path_exists := path_exists demo_world;
     makedirs := makedirs demo_world;
     read_text := fun _ => Ok two_block_srt;
     generate_audio := generate_audio demo_world;
     export_wav := export_wav demo_world |}.

(** ** A subtitle file in the standard layout *)

(** The four fields of a timestamp as they are written. *)
Record stamp : Type := { hh : str; mm : str; ss : str; mmm : str }.

Definition stamp_text (t : stamp) : str := timestamp (hh t) (mm t) (ss t) (mmm t).

Definition stamp_seconds (t : stamp) : Q := seconds_of (hh t) (mm t) (ss t) (mmm t).

Definition stamp_ok (t : stamp) : Prop :=
  field 2 (hh t) /\ field 2 (mm t) /\ field 2 (ss t) /\ field 3 (mmm t).

(** A block as it is written: its number, its two timestamps and the lines
    of its text. *)
Record srt_block : Type := {
  b_number : str;
  b_from : stamp;
  b_to : stamp;
  b_lines : list str
}.

(** The time range of a block. *)
Definition range_text (b : srt_block) : str :=
  stamp_text (b_from b) ++ arrow ++ stamp_text (b_to b).

(** The text of a block: the number, the time range and the text lines, one
    per line. *)
Definition block_text (b : srt_block) : str :=
  b_number b ++ [nl] ++ range_text b ++ [nl] ++ join [nl] (b_lines b).

(** The text of a file: its blocks separated by one empty line. *)
Definition srt_text (blocks : list srt_block) : str :=
  join [nl; nl] (map block_text blocks).

(** The cue such a block stands for. *)
Definition block_cue (b : srt_block) : entry :=
  {| idx := b_number b;
     start_time := stamp_seconds (b_from b);
     end_time := stamp_seconds (b_to b);
     text := strip (join (s " ") (b_lines b)) |}.

(** All the characters of [x] are white space. *)
Definition blank (x : str) : Prop := Forall (fun c => isspace c = true) x.

(** [x] begins with a character that is not white space, and ends with
    one. *)
Definition ink_first (x : str) : Prop :=
  match x with a :: _ => isspace a = false | [] => False end.

Definition ink_last (x : str) : Prop := ink_first (rev x).

(** A block in the standard layout: a number on one line without white
    space around it, two timestamps [HH:MM:SS,mmm], and at least one line
    of text, none empty, the last one not ending with white space. *)
Definition block_ok (b : srt_block) : Prop :=
  ink_first (b_number b) /\ ink_last (b_number b) /\ ~ In nl (b_number b)
  /\ stamp_ok (b_from b) /\ stamp_ok (b_to b)
  /\ b_lines b <> []
  /\ Forall (fun l => l <> [] /\ ~ In nl l) (b_lines b)
  /\ ink_last (last (b_lines b) []).

(** No empty line inside [x] and no line feed at its end. *)
Fixpoint single_spaced (x : str) : Prop :=
  match x with
  | [] => True
  | c :: x' =>
      (c = nl -> match x' with d :: _ => d <> nl | [] => False end)
      /\ single_spaced x'
  end.

(** A string of one to nine decimal digits. *)
Definition short_digits (x : str) : Prop :=
  digits x /\ (List.length x <= 9)%nat.

(** What holds of every cue the parser returns. *)
Definition clean_cue (e : entry) : Prop :=
  nonempty (text e) = true
  /\ strip (text e) = text e /\ ~ In nl (text e)
  /\ strip (idx e) = idx e /\ ~ In nl (idx e).

(** A world in which [path] exists and holds [content], and the output
    directory can be made. *)
Definition holds_file (w : World) (path dir content : str) : Prop :=
  path_exists w path = true
  /\ makedirs w dir = Ok tt
  /\ read_text w path = Ok content.

(** The calls to the synthesiser in a run, in order: text and voice. *)
Fixpoint generate_calls (tr : list event) : list (str * str) :=
  match tr with
  | [] => []
  | EGenerate t p :: tr' => (t, p) :: generate_calls tr'
  | _ :: tr' => generate_calls tr'
  end.

(** The cues the loop sends to the synthesiser: those whose text is not
    blank. *)
Definition spoken (cues : list entry) : list entry :=
  filter (fun e => nonempty (strip (text e))) cues.

(** [n] blanks. *)
Definition blanks (n : nat) : str := repeat (ascii_of_nat 32) n.

(** A file of white space only, and a world that holds it. *)
Definition blank_content : str := s "  " ++ [nl; nl] ++ s " ".

Definition blank_world : World :=
  {| SAMPLE_RATE := SAMPLE_RATE demo_world;
     path_exists := path_exists demo_world;
     makedirs := makedirs demo_world;
     read_text := fun _ => Ok blank_content;
     generate_audio := generate_audio demo_world;
     export_wav := export_wav demo_world |}.

(** A world whose synthesiser always fails. *)
Definition mute_world : World :=
  {| SAMPLE_RATE := SAMPLE_RATE demo_world;
     path_exists := path_exists demo_world;
     makedirs := makedirs demo_world;
     read_text := read_text demo_world;
     generate_audio := fun _ _ _ => Raise (ExternalError 1);
     export_wav := export_wav demo_world |}.

(** Two blocks in the standard layout, the second with two lines of text. *)
Definition stamp_1s : stamp := {| hh := s "00"; mm := s "00"; ss := s "01"; mmm := s "000" |}.
Definition stamp_2s : stamp := {| hh := s "00"; mm := s "00"; ss := s "02"; mmm := s "500" |}.
Definition stamp_4s : stamp := {| hh := s "00"; mm := s "00"; ss := s "04"; mmm := s "000" |}.

Definition block_one : srt_block :=
  {| b_number := s "1"; b_from := stamp_1s; b_to := stamp_2s; b_lines := [s "Hello there."] |}.

Definition block_two : srt_block :=
  {| b_number := s "2"; b_from := stamp_2s; b_to := stamp_4s;
     b_lines := [s "- Who is it?"; s "- Me."] |}.

(** * Properties *)

Unset Implicit Arguments.

(** ** The monad of events *)

Lemma bind_ret_r {A} (m : M A) : bind m ret = m.
Proof.
  destruct m as [tr [a | e]]; simpl; [rewrite app_nil_r|]; reflexivity.
Qed.

Lemma bind_assoc {A B C} (m : M A) (f : A -> M B) (g : B -> M C) :
  bind (bind m f) g = bind m (fun a => bind (f a) g).
Proof.
  destruct m as [tr [a | e]]; simpl; [|reflexivity].
  destruct (f a) as [tr1 [b | e]]; simpl; [|reflexivity].
  destruct (g b) as [tr2 r]. now rewrite app_assoc.
Qed.

Lemma exports_app tr1 tr2 : exports (tr1 ++ tr2) = exports tr1 ++ exports tr2.
Proof.
  induction tr1 as [|ev tr1 IH]; simpl; [reflexivity|].
  destruct ev; simpl; now rewrite IH.
Qed.

Lemma for_loop_app w dir prompt cs l1 l2 : forall i st,
  for_loop w dir prompt cs i (l1 ++ l2) st
  = bind (for_loop w dir prompt cs i l1 st)
         (for_loop w dir prompt cs (i + List.length l1) l2).
Proof.
  induction l1 as [|e l1 IH]; intros i st; simpl.
  - rewrite Nat.add_0_r. destruct (for_loop w dir prompt cs i l2 st); reflexivity.
  - rewrite bind_assoc.
    destruct (loop_body w dir prompt cs i e st) as [tr [st1 | x]]; simpl; [|reflexivity].
    rewrite IH. now replace (S i + List.length l1)%nat with (i + S (List.length l1))%nat by lia.
Qed.

(** ** Splitting *)

Lemma split_from_skip sep p : forall y,
  split_from sep (List.length p) (p ++ y) = split_from sep 0 y.
Proof.
  induction p as [|a p IH]; intros y; [reflexivity|]. simpl. apply IH.
Qed.

Lemma starts_with_app p y : starts_with p (p ++ y) = true.
Proof.
  induction p as [|a p IH]; simpl; [reflexivity|].
  now rewrite Ascii.eqb_refl, IH.
Qed.

(** No occurrence of [sep] begins inside [x] when the first character of
    [sep] does not occur in [x]. *)
Lemma split_app_sep c sep' x y :
  ~ In c x ->
  split (c :: sep') (x ++ (c :: sep') ++ y) = x :: split (c :: sep') y.
Proof.
  unfold split. change ((c :: sep') ++ y) with (c :: sep' ++ y).
  induction x as [|a x IH]; intros N.
  - cbn [app split_from].
    change (starts_with (c :: sep') (c :: sep' ++ y))
      with (starts_with (c :: sep') ((c :: sep') ++ y)).
    rewrite starts_with_app. f_equal.
    replace (List.length (c :: sep') - 1)%nat with (List.length sep') by (simpl; lia).
    apply split_from_skip.
  - rewrite <- app_comm_cons. cbn [split_from starts_with].
    destruct (Ascii.eqb_spec c a) as [-> | _]; [exfalso; apply N; now left|].
    cbn [andb]. rewrite IH; [reflexivity|]. intros I. apply N. now right.
Qed.

Lemma split_no_sep c sep' x :
  ~ In c x -> split (c :: sep') x = [x].
Proof.
  unfold split. induction x as [|a x IH]; intros N; [reflexivity|].
  cbn [split_from starts_with].
  destruct (Ascii.eqb_spec c a) as [-> | _]; [exfalso; apply N; now left|].
  cbn [andb]. rewrite IH; [reflexivity|]. intros I. apply N. now right.
Qed.

(** ** Substrings and stripping *)



Lemma contains_suffix sub p y :
  contains sub y = true -> contains sub (p ++ y) = true.
Proof.
  intros H. induction p as [|a p IH]; [exact H|].
  rewrite <- app_comm_cons. cbn [contains]. rewrite IH. apply orb_true_r.
Qed.

Lemma lstrip_suffix x : exists p, x = p ++ lstrip x.
Proof.
  induction x as [|c x [p E]]; [now exists []|]. simpl.
  destruct (isspace c); [|now exists []].
  exists (c :: p). simpl. now rewrite <- E.
Qed.

Lemma strip_inside x : exists p q, x = p ++ strip x ++ q.
Proof.
  destruct (lstrip_suffix x) as [p E].
  destruct (lstrip_suffix (rev (lstrip x))) as [q F].
  exists p, (rev q). unfold strip, rstrip.
  rewrite <- rev_app_distr, <- F, rev_involutive. exact E.
Qed.


(** ** Lines *)

Lemma split_from_nonempty sep x : forall k, split_from sep k x <> [].
Proof.
  induction x as [|a x IH]; intros k; simpl; [discriminate|].
  destruct k; [|apply IH].
  destruct (starts_with sep (a :: x)); [discriminate|].
  specialize (IH 0%nat). destruct (split_from sep 0 x); [contradiction|discriminate].
Qed.




Lemma split_char_join c x : join [c] (split [c] x) = x.
Proof.
  unfold split. induction x as [|a x IH]; [reflexivity|].
  cbn [split_from starts_with List.length Nat.sub].
  pose proof (split_from_nonempty [c] x 0) as NE.
  destruct (Ascii.eqb_spec c a) as [-> | N]; cbn [andb].
  - destruct (split_from [a] 0 x) as [|l ls] eqn:S; [contradiction|].
    cbn [join]. cbn [join] in IH. now rewrite IH.
  - destruct (split_from [c] 0 x) as [|l ls] eqn:S; [contradiction|].
    cbn [push]. destruct ls; cbn [join] in IH |- *; now rewrite <- IH.
Qed.

(** ** Decimal literals *)

Lemma is_digit_value c : is_digit c = true -> exists d, digit_value c = Some d.
Proof. unfold is_digit. destruct (digit_value c) as [d|]; [now exists d|discriminate]. Qed.

Lemma digit_not_space c : is_digit c = true -> int_space c = false.
Proof.
  unfold is_digit, digit_value, int_space.
  destruct ((48 <=? nat_of_ascii c)%nat && (nat_of_ascii c <=? 57)%nat) eqn:E; [|discriminate].
  intros _. apply andb_true_iff in E as [E1 E2].
  apply Nat.leb_le in E1, E2.
  repeat (apply orb_false_iff; split);
    try (apply andb_false_iff; right; apply Nat.leb_gt; lia);
    apply Nat.eqb_neq; lia.
Qed.

Lemma digit_not_char c (k : nat) :
  is_digit c = true -> (k < 48 \/ 57 < k < 256)%nat -> c <> ascii_of_nat k.
Proof.
  unfold is_digit, digit_value.
  destruct ((48 <=? nat_of_ascii c)%nat && (nat_of_ascii c <=? 57)%nat) eqn:E; [|discriminate].
  intros _ K ->. apply andb_true_iff in E as [E1 E2].
  apply Nat.leb_le in E1, E2.
  rewrite nat_ascii_embedding in E1, E2 by lia. lia.
Qed.

Lemma digits_no_char x (k : nat) :
  Forall (fun c => is_digit c = true) x -> (k < 48 \/ 57 < k < 256)%nat ->
  ~ In (ascii_of_nat k) x.
Proof.
  intros F K I. rewrite Forall_forall in F.
  exact (digit_not_char _ k (F _ I) K eq_refl).
Qed.

Lemma digits_value_all x : forall acc b,
  Forall (fun c => is_digit c = true) x -> (x <> [] \/ b = true) ->
  digits_value acc b x
  = Some (fold_left (fun a c =>
            (10 * a + match digit_value c with Some d => d | None => 0 end)%Z) x acc).
Proof.
  induction x as [|c x IH]; intros acc b F N.
  - destruct N as [N | ->]; [contradiction|reflexivity].
  - apply Forall_cons_iff in F as [D F]. cbn [digits_value fold_left].
    destruct (is_digit_value c D) as [d ->]. apply IH; [exact F|now right].
Qed.

Lemma int_lstrip_digit c x : is_digit c = true -> int_lstrip (c :: x) = c :: x.
Proof. intros D. simpl. now rewrite (digit_not_space c D). Qed.

(** [int] of a string of digits is the number it denotes. *)
Lemma py_int_digits x : digits x -> py_int x = Ok (decimal x).
Proof.
  intros [N F]. unfold py_int.
  assert (S : int_strip x = x).
  { unfold int_strip. destruct x as [|c x]; [contradiction|].
    apply Forall_cons_iff in F as [D F]. rewrite (int_lstrip_digit c x D).
    destruct (exists_last (l := c :: x)) as (y & z & E); [discriminate|].
    rewrite E, rev_app_distr. cbn [rev app].
    assert (Dz : is_digit z = true).
    { assert (I : In z (c :: x)) by (rewrite E; apply in_or_app; right; now left).
      destruct I as [<- | I]; [exact D|]. rewrite Forall_forall in F. now apply F. }
    rewrite (int_lstrip_digit z _ Dz). cbn [rev]. now rewrite rev_involutive. }
  rewrite S. destruct x as [|c x]; [contradiction|].
  assert (D : is_digit c = true) by now apply Forall_cons_iff in F as [D _].
  destruct (Ascii.eqb_spec c minus_sign) as [E | _].
  { exfalso. exact (digit_not_char c 45 D ltac:(lia) E). }
  destruct (Ascii.eqb_spec c plus_sign) as [E | _].
  { exfalso. exact (digit_not_char c 43 D ltac:(lia) E). }
  rewrite digits_value_all; [reflexivity|exact F|now left].
Qed.

(** ** Timestamps *)

Lemma time_to_seconds_timestamp h m sec ms :
  digits h -> digits m -> digits sec -> digits ms ->
  time_to_seconds (timestamp h m sec ms) = Ok (seconds_of h m sec ms).
Proof.
  intros Hh Hm Hs Hms. unfold time_to_seconds, timestamp.
  assert (C : forall x, digits x -> ~ In (ascii_of_nat 58) x)
    by (intros x [_ F]; apply digits_no_char; [exact F|lia]).
  assert (K : forall x, digits x -> ~ In (ascii_of_nat 44) x)
    by (intros x [_ F]; apply digits_no_char; [exact F|lia]).
  change (s ":") with [ascii_of_nat 58]. change (s ",") with [ascii_of_nat 44].
  rewrite (split_app_sep (ascii_of_nat 58) [] h _ (C h Hh)).
  rewrite (split_app_sep (ascii_of_nat 58) [] m _ (C m Hm)).
  rewrite (split_no_sep (ascii_of_nat 58) []).
  2: { intros I. apply in_app_or in I as [I | I]; [exact (C sec Hs I)|].
       apply in_app_or in I as [[I | []] | I]; [discriminate|exact (C ms Hms I)]. }
  rewrite (split_app_sep (ascii_of_nat 44) [] sec _ (K sec Hs)).
  rewrite (split_no_sep (ascii_of_nat 44) [] ms (K ms Hms)).
  rewrite !py_int_digits by assumption. reflexivity.
Qed.

Lemma field_digits n x : (0 < n)%nat -> field n x -> digits x.
Proof.
  intros P [L F]. split; [|exact F]. intros ->. simpl in L. lia.
Qed.

(** C5. A timestamp [HH:MM:SS,mmm], its four fields being two, two, two and
    three decimal digits, converts without raising to
    [H*3600 + M*60 + S + ms/1000] seconds; [12:34:56,789] converts to
    45296.789 seconds. *)
Theorem timestamp_to_seconds h m sec ms :
  field 2 h -> field 2 m -> field 2 sec -> field 3 ms ->
  exists t,
    time_to_seconds (h ++ s ":" ++ m ++ s ":" ++ sec ++ s "," ++ ms) = Ok t
    /\ (t == inject_Z (decimal h) * 3600 + inject_Z (decimal m) * 60
             + inject_Z (decimal sec) + inject_Z (decimal ms) / 1000)%Q
    /\ exists t0,
         time_to_seconds (s "12:34:56,789") = Ok t0 /\ (t0 == 45296.789)%Q.
Proof.
  intros Hh Hm Hs Hms. exists (seconds_of h m sec ms). split; [|split].
  - apply time_to_seconds_timestamp; eapply field_digits; try eassumption; lia.
  - unfold seconds_of. rewrite !inject_Z_plus, !inject_Z_mult. reflexivity.
  - eexists. split; [vm_compute; reflexivity|reflexivity].
Qed.

(** ** The parser *)








Lemma parse_blocks_ok blocks : forall acc,
  (forall b, In b blocks -> exists r, parse_block b = Ok r) ->
  parse_blocks blocks acc = Ok (acc ++ kept_entries blocks).
Proof.
  induction blocks as [|b blocks IH]; intros acc H; simpl.
  - now rewrite app_nil_r.
  - destruct (H b (or_introl eq_refl)) as [r E].
    unfold kept_entries. cbn [flat_map]. rewrite E.
    destruct r as [e|]; rewrite IH by (intros b' I; apply H; now right).
    + now rewrite <- app_assoc.
    + reflexivity.
Qed.




Lemma timestamp_no_space h m sec ms :
  digits h -> digits m -> digits sec -> digits ms ->
  ~ In (ascii_of_nat 32) (timestamp h m sec ms).
Proof.
  intros [_ Hh] [_ Hm] [_ Hs] [_ Hms]. unfold timestamp. intros I.
  repeat (apply in_app_or in I as [I | I]);
    try (revert I; apply digits_no_char; [assumption|lia]);
    destruct I as [I | []]; discriminate.
Qed.

(** Two well-formed timestamps joined by the arrow convert. *)
Lemma parse_time_range_timestamps h m sec ms h' m' sec' ms' :
  digits h -> digits m -> digits sec -> digits ms ->
  digits h' -> digits m' -> digits sec' -> digits ms' ->
  parse_time_range (timestamp h m sec ms ++ arrow ++ timestamp h' m' sec' ms')
  = Ok (seconds_of h m sec ms, seconds_of h' m' sec' ms').
Proof.
  intros. unfold parse_time_range.
  change arrow with (ascii_of_nat 32 :: s "--> ").
  rewrite split_app_sep by now apply timestamp_no_space.
  rewrite split_no_sep by now apply timestamp_no_space.
  rewrite !time_to_seconds_timestamp by assumption. reflexivity.
Qed.



(** ** The text of a parsed cue *)

Lemma lstrip_keeps z x : In z x -> isspace z = false -> In z (lstrip x).
Proof.
  induction x as [|a x IH]; intros I N; [contradiction|]. simpl.
  destruct (isspace a) eqn:S; [|exact I].
  destruct I as [-> | I]; [congruence|]. now apply IH.
Qed.

Lemma strip_keeps z x : In z x -> isspace z = false -> In z (strip x).
Proof.
  intros I N. unfold strip, rstrip. apply in_rev. rewrite rev_involutive.
  apply lstrip_keeps; [|exact N]. rewrite <- in_rev. now apply lstrip_keeps.
Qed.

Lemma lstrip_head x : lstrip x = [] \/ exists a y, lstrip x = a :: y /\ isspace a = false.
Proof.
  induction x as [|a x IH]; [now left|]. simpl.
  destruct (isspace a) eqn:S; [exact IH|]. right. now exists a, x.
Qed.

(** A stripped string is empty or ends with a character that is not white
    space. *)
Lemma strip_last x : strip x = [] \/ exists y z, strip x = y ++ [z] /\ isspace z = false.
Proof.
  unfold strip, rstrip. destruct (lstrip_head (rev (lstrip x))) as [-> | (a & y & -> & N)].
  - now left.
  - right. exists (rev y), a. split; [reflexivity|exact N].
Qed.

Lemma join_last sep parts l z : In z l -> In z (join sep (parts ++ [l])).
Proof.
  intros I. induction parts as [|p parts IH]; [exact I|].
  cbn [app]. destruct (parts ++ [l]) eqn:E.
  - destruct parts; discriminate.
  - cbn [join]. apply in_or_app. right. apply in_or_app. right. exact IH.
Qed.

(** The last line of a text that ends with [z], not a line feed, ends with
    [z]. *)
Lemma split_char_snoc c y z :
  z <> c ->
  exists init l, split [c] (y ++ [z]) = init ++ [l ++ [z]]
                 /\ List.length init = count_occ ascii_dec y c.
Proof.
  intros N. unfold split. induction y as [|a y (init & l & E & L)].
  - exists [], []. cbn [app split_from starts_with].
    destruct (Ascii.eqb_spec c z) as [-> | _]; [contradiction|]. now split.
  - cbn [app split_from starts_with List.length Nat.sub count_occ]. rewrite E.
    destruct (Ascii.eqb_spec c a) as [-> | Na]; cbn [andb].
    + destruct (ascii_dec a a) as [_ | X]; [|contradiction].
      exists ([] :: init), l. split; [reflexivity|]. simpl. now rewrite L.
    + destruct (ascii_dec a c) as [X | _]; [congruence|].
      destruct init as [|i init].
      * exists [], (a :: l). split; [reflexivity|exact L].
      * exists ((a :: i) :: init), l. split; [reflexivity|exact L].
Qed.

(** The parser never yields a cue with a blank text: a block of at least 3
    lines ends, once stripped, with a character that is not white space, and
    that character is in the text. *)
Lemma parsed_text_not_blank block e :
  parse_block block = Ok (Some e) -> nonempty (strip (text e)) = true.
Proof.
  unfold parse_block.
  destruct (Nat.ltb_spec (List.length (block_lines block)) 3) as [Lt | Ge]; [discriminate|].
  destruct (negb _); [discriminate|].
  destruct (parse_time_range _) as [t | x]; [|discriminate].
  cbn [rbind]. intros H. injection H as <-. cbn [text].
  unfold block_lines in *.
  destruct (strip_last block) as [E | (y & z & E & N)].
  { rewrite E in Ge. simpl in Ge. lia. }
  rewrite E in *.
  assert (Nz : z <> nl) by (intros ->; discriminate).
  destruct (split_char_snoc nl y z Nz) as (init & l & S & L).
  rewrite S in *. rewrite length_app in Ge. simpl in Ge.
  assert (K : skipn 2 (init ++ [l ++ [z]]) = skipn 2 init ++ [l ++ [z]]).
  { rewrite skipn_app. replace (2 - List.length init)%nat with 0%nat by lia. reflexivity. }
  match goal with |- nonempty (strip (strip (join _ ?m))) = true =>
    replace m with (skipn 2 init ++ [l ++ [z]]) by (symmetry; exact K) end.
  assert (I : In z (strip (strip (join (s " ") (skipn 2 init ++ [l ++ [z]]))))).
  { apply strip_keeps; [|exact N]. apply strip_keeps; [|exact N].
    apply join_last. apply in_or_app. right. now left. }
  destruct (strip (strip _)); [contradiction|reflexivity].
Qed.

(** ** A missing input file *)

(** C9. When the input path does not exist, [srt_to_audio] raises
    [FileNotFoundError] after the existence test alone: no directory has been
    created, nothing has been read or parsed, nothing synthesised or
    exported. *)
Theorem missing_input_fails_first w srt_file_path output_dir history_prompt chunk_size :
  path_exists w srt_file_path = false ->
  srt_to_audio w srt_file_path output_dir history_prompt chunk_size
  = ([EExists srt_file_path],
     Raise (FileNotFoundError (s "SRT file not found: " ++ srt_file_path))).
Proof.
  intros H. unfold srt_to_audio, call. simpl. rewrite H. reflexivity.
Qed.

(** ** The gap before a cue *)

Lemma py_max0_spec x : (py_max0 x == Qmax 0 x)%Q.
Proof.
  unfold py_max0. destruct (Qcompare_spec 0 x) as [H | H | H].
  - rewrite <- H. now rewrite Q.max_id.
  - symmetry. apply Q.max_r. now apply Qlt_le_weak.
  - symmetry. apply Q.max_l. now apply Qlt_le_weak.
Qed.

Lemma py_max0_neg x : (x < 0)%Q -> py_max0 x = 0%Q.
Proof.
  intros H. unfold py_max0. destruct (Qcompare_spec 0 x) as [E | L | G]; try reflexivity.
  exfalso. apply (Qlt_irrefl 0). now apply Qlt_trans with x.
Qed.



Lemma silent_zero rate : silent 0 rate = [].
Proof. reflexivity. Qed.

(** The only exceptions the body of the loop can end with: one raised by the
    synthesiser or by the export, or the division by a zero [chunk_size]. *)
Lemma loop_body_raise w dir prompt cs i e st tr x :
  loop_body w dir prompt cs i e st = (tr, Raise x) ->
  generate_audio w i (text e) prompt = Raise x
  \/ (exists p a, export_wav w p a = Raise x)
  \/ (cs = 0%Z /\ x = ZeroDivisionError).
Proof.
  unfold loop_body. intros H.
  destruct (nonempty (strip (text e))).
  - destruct (generate_audio w i (text e) prompt) as [a | y] eqn:G; simpl in H.
    + destruct (Z.eqb_spec cs 0); simpl in H.
      * right; right. split; congruence.
      * destruct ((Z.of_nat i + 1) mod cs =? 0)%Z; simpl in H; [|discriminate].
        match type of H with context [export_wav w ?p ?b] => destruct (export_wav w p b) eqn:X end;
          simpl in H; [discriminate|].
        right; left. do 2 eexists. rewrite X. congruence.
    + left. congruence.
  - simpl in H. destruct (Z.eqb_spec cs 0); simpl in H.
    + right; right. split; congruence.
    + destruct ((Z.of_nat i + 1) mod cs =? 0)%Z; simpl in H; [|discriminate].
      match type of H with context [export_wav w ?p ?b] => destruct (export_wav w p b) eqn:X end;
        simpl in H; [discriminate|].
      right; left. do 2 eexists. rewrite X. congruence.
Qed.

(** C4. The silence inserted before a cue lasts
    [max(0, (start_time - previous_end_time) * 1000)] milliseconds: it is never
    negative, and when the cue starts before the cursor it is exactly 0, no
    frame of silence is added, the cue is processed as if it started at the
    cursor, and the body of the loop raises nothing on account of the
    timing. *)
Theorem gap_clamped w dir prompt cs i (e : entry) (st : loop_state) :
  let gap := silence_duration (start_time e) (previous_end_time st) in
  (gap == Qmax 0 ((start_time e - previous_end_time st) * 1000))%Q
  /\ (0 <= gap)%Q
  /\ ((start_time e < previous_end_time st)%Q ->
      gap = 0%Q
      /\ generate_silence gap (SAMPLE_RATE w) = []
      /\ loop_body w dir prompt cs i e st
         = loop_body w dir prompt cs i (with_start (previous_end_time st) e) st)
  /\ (forall tr x, loop_body w dir prompt cs i e st = (tr, Raise x) ->
      generate_audio w i (text e) prompt = Raise x
      \/ (exists p a, export_wav w p a = Raise x)
      \/ (cs = 0%Z /\ x = ZeroDivisionError)).
Proof.
  cbv zeta. split; [apply py_max0_spec|]. split.
  { unfold silence_duration. rewrite py_max0_spec. apply Q.le_max_l. }
  split; [|intros tr x; apply loop_body_raise].
  intros Hlt.
  assert (G : silence_duration (start_time e) (previous_end_time st) = 0%Q).
  { apply py_max0_neg. lra. }
  assert (G' : silence_duration (previous_end_time st) (previous_end_time st) = 0%Q).
  { unfold silence_duration, py_max0.
    destruct (Qcompare_spec 0 ((previous_end_time st - previous_end_time st) * 1000)) as [E|L|L'];
      try reflexivity. exfalso. lra. }
  split; [exact G|]. split; [rewrite G; reflexivity|].
  unfold loop_body. simpl. rewrite G, G'. reflexivity.
Qed.

(** ** The cursor *)

Lemma loop_body_cursor w dir prompt cs i e st tr st' :
  loop_body w dir prompt cs i e st = (tr, Ok st') ->
  previous_end_time st' = end_time e.
Proof.
  unfold loop_body. intros H.
  destruct (nonempty (strip (text e)));
    [destruct (generate_audio w i (text e) prompt); simpl in H; [|discriminate]|simpl in H];
    (destruct (cs =? 0)%Z; simpl in H; [discriminate|]);
    (destruct ((Z.of_nat i + 1) mod cs =? 0)%Z; simpl in H;
     [match type of H with context [export_wav w ?p ?b] => destruct (export_wav w p b) end;
      simpl in H; [|discriminate]|]);
    injection H as _ <-; reflexivity.
Qed.

(** In a reliable world the body of the loop returns, and this is what it
    does. *)
Lemma loop_body_reliable w dir prompt cs i e st :
  reliable w -> cs <> 0%Z ->
  let audio := final_audio st ++ cue_audio w prompt (previous_end_time st) i e in
  loop_body w dir prompt cs i e st =
  if ((Z.of_nat i + 1) mod cs =? 0)%Z
  then (generate_events prompt e
          ++ [EExport (output_path dir (part_number st)) audio;
              EPrintSaved (output_path dir (part_number st))],
        Ok {| final_audio := []; previous_end_time := end_time e;
              part_number := (part_number st + 1)%Z |})
  else (generate_events prompt e,
        Ok {| final_audio := audio; previous_end_time := end_time e;
              part_number := part_number st |}).
Proof.
  intros [Hg Hx] Hcs. cbv zeta.
  unfold loop_body, cue_audio, speech, generate_events.
  destruct (Z.eqb_spec cs 0) as [|_]; [contradiction|].
  destruct (nonempty (strip (text e))).
  - destruct (Hg i (text e) prompt) as [a ->]. simpl.
    destruct (Z.eqb_spec cs 0) as [|_]; [contradiction|].
    destruct ((Z.of_nat i + 1) mod cs =? 0)%Z; simpl.
    + rewrite Hx. simpl. now rewrite <- app_assoc.
    + now rewrite <- app_assoc.
  - simpl. destruct (Z.eqb_spec cs 0) as [|_]; [contradiction|].
    destruct ((Z.of_nat i + 1) mod cs =? 0)%Z; simpl.
    + rewrite Hx. simpl. now rewrite !app_nil_r.
    + now rewrite !app_nil_r.
Qed.

Lemma last_cons_default {A} (l : list A) : forall a d, last (a :: l) d = last l a.
Proof.
  induction l as [|b l IH]; intros a d; [reflexivity|].
  change (last (a :: b :: l) d) with (last (b :: l) d). now rewrite !IH.
Qed.

Lemma cursor_after_cons prev e cues :
  cursor_after prev (e :: cues) = cursor_after (end_time e) cues.
Proof. unfold cursor_after. simpl map. apply last_cons_default. Qed.

Lemma for_loop_reliable_cursor w dir prompt cs : reliable w -> cs <> 0%Z ->
  forall cues i st, exists tr st',
    for_loop w dir prompt cs i cues st = (tr, Ok st')
    /\ previous_end_time st' = cursor_after (previous_end_time st) cues.
Proof.
  intros Hw Hcs. induction cues as [|e cues IH]; intros i st; simpl.
  - now exists [], st.
  - rewrite (loop_body_reliable w dir prompt cs i e st Hw Hcs).
    match goal with |- context [if ?c then (?t1, Ok ?s1) else (?t2, Ok ?s2)] =>
      destruct c;
      [destruct (IH (S i) s1) as (tr & st' & E & P) | destruct (IH (S i) s2) as (tr & st' & E & P)]
    end; simpl; rewrite E; do 2 eexists; (split; [reflexivity|]);
      rewrite P, cursor_after_cons; reflexivity.
Qed.

(** C6. The cursor is 0 before the first cue; whenever the body of the loop
    completes for a cue, the cursor is that cue's [end_time], whatever the
    cursor was before and whether or not the cue had text to synthesise; and
    in a reliable world, with a non-zero [chunk_size], the body does complete
    for every cue, so that after any cues the cursor is the [end_time] of the
    last one. *)
Theorem cursor_is_last_end_time w dir prompt cs :
  previous_end_time initial_state = 0%Q
  /\ (forall i e st tr st',
        loop_body w dir prompt cs i e st = (tr, Ok st') ->
        previous_end_time st' = end_time e)
  /\ (reliable w -> cs <> 0%Z ->
      forall cues e, exists tr st',
        for_loop w dir prompt cs 0 (cues ++ [e]) initial_state = (tr, Ok st')
        /\ previous_end_time st' = end_time e).
Proof.
  split; [reflexivity|]. split.
  - intros i e st tr st'. apply loop_body_cursor.
  - intros Hw Hcs cues e.
    destruct (for_loop_reliable_cursor w dir prompt cs Hw Hcs (cues ++ [e]) 0%nat initial_state)
      as (tr & st' & E & P).
    exists tr, st'. split; [exact E|]. rewrite P. unfold cursor_after.
    rewrite map_app. simpl. apply last_last.
Qed.

(** ** Part numbers *)

Lemma py_str_of_int_inj n m : py_str_of_int n = py_str_of_int m -> n = m.
Proof.
  unfold py_str_of_int, s. intros H.
  apply (f_equal string_of_list_ascii) in H.
  rewrite !string_of_list_ascii_of_string in H.
  apply (f_equal NilZero.int_of_string) in H.
  assert (N : forall z, Z.to_int z <> Decimal.Pos Decimal.Nil
                        /\ Z.to_int z <> Decimal.Neg Decimal.Nil).
  { intros [|p|p]; simpl; split; try discriminate;
      intros E; injection E as E; exact (DecimalPos.Unsigned.to_uint_nonnil p E). }
  rewrite !NilZero.isi in H by apply N.
  injection H as H. now apply DecimalZ.to_int_inj.
Qed.

(** Two parts of one run never share a file. *)
Lemma output_path_inj dir n m : output_path dir n = output_path dir m -> n = m.
Proof.
  unfold output_path, os_path_join. simpl starts_with.
  destruct (_ || _); intros H; apply py_str_of_int_inj.
  - apply app_inv_head in H. apply app_inv_head in H. now apply app_inv_tail in H.
  - apply app_inv_head in H. apply (app_inv_head (s "/")) in H.
    apply app_inv_head in H. now apply app_inv_tail in H.
Qed.

Lemma parts_from_app k1 : forall first k2,
  parts_from first (k1 + k2)
  = parts_from first k1 ++ parts_from (first + Z.of_nat k1) k2.
Proof.
  induction k1 as [|k1 IH]; intros first k2; simpl plus.
  - simpl. now rewrite Z.add_0_r.
  - cbn [parts_from app]. rewrite IH. do 3 f_equal. lia.
Qed.

Lemma parts_from_nth k : forall first j,
  (j < k)%nat -> nth j (parts_from first k) 0%Z = (first + Z.of_nat j)%Z.
Proof.
  induction k as [|k IH]; intros first j H; [lia|].
  destruct j as [|j]; cbn [parts_from nth]; [lia|].
  rewrite IH by lia. lia.
Qed.

Lemma parts_from_ge k : forall first z, In z (parts_from first k) -> (first <= z)%Z.
Proof.
  induction k as [|k IH]; intros first z; simpl; [tauto|].
  intros [<- | H]; [lia|]. apply IH in H. lia.
Qed.

Lemma parts_from_NoDup k : forall first, NoDup (parts_from first k).
Proof.
  induction k as [|k IH]; intros first; simpl; constructor; [|apply IH].
  intros H. apply parts_from_ge in H. lia.
Qed.

Lemma export_paths_app tr1 tr2 :
  export_paths (tr1 ++ tr2) = export_paths tr1 ++ export_paths tr2.
Proof. unfold export_paths. now rewrite exports_app, map_app. Qed.

(** The body of the loop exports nothing, or one unit under the current part
    number, which it then increments. *)
Lemma loop_body_parts w dir prompt cs i e st tr r :
  loop_body w dir prompt cs i e st = (tr, r) ->
  exists k,
    export_paths tr = map (output_path dir) (parts_from (part_number st) k)
    /\ forall st', r = Ok st' -> part_number st' = (part_number st + Z.of_nat k)%Z.
Proof.
  unfold loop_body. intros H.
  assert (Stop : forall tr0 x, (tr, r) = (tr0, @Raise loop_state x) -> exports tr0 = [] ->
    exists k,
      export_paths tr = map (output_path dir) (parts_from (part_number st) k)
      /\ forall st', r = Ok st' -> part_number st' = (part_number st + Z.of_nat k)%Z).
  { intros tr0 x E X. injection E as -> ->. exists 0%nat.
    unfold export_paths. rewrite X. split; [reflexivity|discriminate]. }
  destruct (nonempty (strip (text e)));
    [destruct (generate_audio w i (text e) prompt); simpl in H;
     [|symmetry in H; now apply Stop in H]|simpl in H];
    (destruct (cs =? 0)%Z; simpl in H; [symmetry in H; now apply Stop in H|]);
    (destruct ((Z.of_nat i + 1) mod cs =? 0)%Z; simpl in H;
     [match type of H with context [export_wav w ?p ?b] => destruct (export_wav w p b) end;
      simpl in H; injection H as <- <-; exists 1%nat;
      (split; [reflexivity|]); intros st' E; inversion E; reflexivity
     |injection H as <- <-; exists 0%nat; split; [reflexivity|];
      intros st' E; inversion E; simpl; lia]).
Qed.

Lemma for_loop_parts w dir prompt cs cues : forall i st tr r,
  for_loop w dir prompt cs i cues st = (tr, r) ->
  exists k,
    export_paths tr = map (output_path dir) (parts_from (part_number st) k)
    /\ forall st', r = Ok st' -> part_number st' = (part_number st + Z.of_nat k)%Z.
Proof.
  induction cues as [|e cues IH]; intros i st tr r H; simpl in H.
  - injection H as <- <-. exists 0%nat. split; [reflexivity|].
    intros st' E. inversion E. lia.
  - destruct (loop_body w dir prompt cs i e st) as [tr1 r1] eqn:B.
    destruct (loop_body_parts _ _ _ _ _ _ _ _ _ B) as (k1 & P1 & N1).
    destruct r1 as [st1 | x]; simpl in H.
    + destruct (for_loop w dir prompt cs (S i) cues st1) as [tr2 r2] eqn:F.
      injection H as <- <-.
      destruct (IH _ _ _ _ F) as (k2 & P2 & N2).
      exists (k1 + k2)%nat. rewrite export_paths_app, P1, P2, parts_from_app, map_app.
      rewrite (N1 st1 eq_refl). split; [reflexivity|].
      intros st' E. rewrite (N2 st' E), (N1 st1 eq_refl). lia.
    + injection H as <- <-. exists k1. split; [exact P1|discriminate].
Qed.

Lemma timeline_parts w dir prompt cs cues tr r :
  timeline w dir prompt cs cues = (tr, r) ->
  exists k, export_paths tr = map (output_path dir) (parts_from 1 k).
Proof.
  unfold timeline. intros H.
  destruct (for_loop w dir prompt cs 0 cues initial_state) as [tr1 r1] eqn:F.
  destruct (for_loop_parts _ _ _ _ _ _ _ _ _ F) as (k1 & P1 & N1).
  destruct r1 as [st1 | x]; simpl in H.
  - unfold save_remaining in H. rewrite (N1 st1 eq_refl) in H.
    destruct (0 <? audio_len _ _)%Z; simpl in H.
    + match type of H with context [export_wav w ?p ?b] => destruct (export_wav w p b) end;
        simpl in H; injection H as <- _; exists (k1 + 1)%nat;
        rewrite export_paths_app, P1, parts_from_app, map_app; reflexivity.
    + injection H as <- _. exists k1.
      rewrite export_paths_app, P1. apply app_nil_r.
  - injection H as <- _. exists k1. exact P1.
Qed.

(** C8. In every run of [srt_to_audio], whatever the world answers and
    whether the run completes or raises, the units handed to the export are
    named, in export order, after the part numbers 1, 2, ..., k for some k:
    the numbers start at 1 and increase by one, and no two units of the run
    share a number or a file. *)
Theorem part_numbers_increase w srt_file_path output_dir history_prompt chunk_size :
  exists k,
    export_paths (fst (srt_to_audio w srt_file_path output_dir history_prompt chunk_size))
    = map (output_path output_dir) (parts_from 1 k)
    /\ (forall j, (j < k)%nat -> nth j (parts_from 1 k) 0%Z = (1 + Z.of_nat j)%Z)
    /\ NoDup (parts_from 1 k)
    /\ NoDup (map (output_path output_dir) (parts_from 1 k)).
Proof.
  assert (E : exists k,
    export_paths (fst (srt_to_audio w srt_file_path output_dir history_prompt chunk_size))
    = map (output_path output_dir) (parts_from 1 k)).
  { unfold srt_to_audio, parse_srt, call. simpl.
    destruct (path_exists w srt_file_path); simpl; [|now exists 0%nat].
    destruct (makedirs w output_dir); simpl; [|now exists 0%nat].
    destruct (read_text w srt_file_path) as [content | x]; simpl; [|now exists 0%nat].
    destruct (parse_content content) as [subtitles | x]; simpl; [|now exists 0%nat].
    destruct (timeline w output_dir history_prompt chunk_size subtitles) as [tr r] eqn:T.
    apply timeline_parts in T. exact T. }
  destruct E as (k & E). exists k. split; [exact E|].
  split; [intros j H; now apply parts_from_nth|].
  split; [apply parts_from_NoDup|].
  generalize (parts_from_NoDup k 1%Z). generalize (parts_from 1 k).
  induction 1 as [|z l Hz Hl IH]; simpl; constructor; [|exact IH].
  rewrite in_map_iff. intros (z' & P & I).
  apply output_path_inj in P. now subst z'.
Qed.

(** ** Rounding and the length of a segment *)



Lemma audio_len_nil rate : audio_len rate [] = 0%Z.
Proof. reflexivity. Qed.

(** ** Chunks *)

Lemma run_audio_app w prompt l1 l2 : forall prev i,
  run_audio w prompt prev i (l1 ++ l2)
  = run_audio w prompt prev i l1
    ++ run_audio w prompt (cursor_after prev l1) (i + List.length l1) l2.
Proof.
  induction l1 as [|e l1 IH]; intros prev i; simpl.
  - now rewrite Nat.add_0_r.
  - rewrite IH, cursor_after_cons, <- app_assoc.
    now replace (S i + List.length l1)%nat with (i + S (List.length l1))%nat by lia.
Qed.

Lemma cursor_after_app prev l1 l2 :
  cursor_after prev (l1 ++ l2) = cursor_after (cursor_after prev l1) l2.
Proof.
  revert prev. induction l1 as [|e l1 IH]; intros prev; [reflexivity|].
  simpl app. now rewrite !cursor_after_cons, IH.
Qed.

(** Position [m * c + t] closes a chunk of [c] cues exactly when
    [t = c - 1]. *)
Lemma boundary_inside (c m t : nat) :
  (t + 1 < c)%nat ->
  ((Z.of_nat (m * c + t) + 1) mod Z.of_nat c =? 0)%Z = false.
Proof.
  intros H. apply Z.eqb_neq.
  replace (Z.of_nat (m * c + t) + 1)%Z
    with (Z.of_nat (t + 1) + Z.of_nat m * Z.of_nat c)%Z by lia.
  rewrite Z.mod_add by lia. rewrite Z.mod_small; lia.
Qed.

Lemma boundary_last (c m : nat) :
  (0 < c)%nat ->
  ((Z.of_nat (m * c + (c - 1)) + 1) mod Z.of_nat c =? 0)%Z = true.
Proof.
  intros H. apply Z.eqb_eq.
  replace (Z.of_nat (m * c + (c - 1)) + 1)%Z
    with (0 + (Z.of_nat m + 1) * Z.of_nat c)%Z by lia.
  rewrite Z.mod_add by lia. reflexivity.
Qed.

Section Chunks.

Variable w : World.
Variables dir prompt : str.
Variable c : nat.
Hypothesis Hw : reliable w.
Hypothesis Hc : (0 < c)%nat.

Lemma cs_nonzero : Z.of_nat c <> 0%Z.
Proof. lia. Qed.

(** Cues that do not reach the end of their chunk only extend the buffer. *)
Lemma for_loop_inside m : forall cues t st,
  (t + List.length cues < c)%nat ->
  exists tr,
    for_loop w dir prompt (Z.of_nat c) (m * c + t)%nat cues st
    = (tr, Ok {| final_audio :=
                   final_audio st
                   ++ run_audio w prompt (previous_end_time st) (m * c + t) cues;
                 previous_end_time := cursor_after (previous_end_time st) cues;
                 part_number := part_number st |})
    /\ exports tr = [].
Proof.
  induction cues as [|e cues IH]; intros t st H; simpl.
  - exists []. rewrite app_nil_r. destruct st; auto.
  - simpl in H. rewrite (loop_body_reliable w dir prompt _ _ e st Hw cs_nonzero).
    rewrite boundary_inside by lia.
    replace (S (m * c + t)) with (m * c + S t)%nat by lia.
    unfold bind.
    match goal with |- context [for_loop _ _ _ _ _ cues ?s1] =>
      destruct (IH (S t) s1) as (tr & E & X); [lia|] end.
    simpl in E |- *. rewrite E.
    exists (generate_events prompt e ++ tr). split.
    + rewrite cursor_after_cons, <- app_assoc.
      now replace (m * c + S t)%nat with (S (m * c + t)) by lia.
    + rewrite exports_app, X, app_nil_r.
      unfold generate_events. now destruct (nonempty (strip (text e))).
Qed.

(** A full chunk is exported as one unit, after which the buffer is empty
    and the part number one more. *)
Lemma for_loop_full_chunk m cues st :
  List.length cues = c ->
  exists tr,
    for_loop w dir prompt (Z.of_nat c) (m * c)%nat cues st
    = (tr, Ok {| final_audio := [];
                 previous_end_time := cursor_after (previous_end_time st) cues;
                 part_number := (part_number st + 1)%Z |})
    /\ exports tr
       = [(output_path dir (part_number st),
           final_audio st ++ run_audio w prompt (previous_end_time st) (m * c) cues)].
Proof.
  intros L.
  destruct (exists_last (l := cues)) as (body & e & ->).
  { intros ->. simpl in L. lia. }
  rewrite length_app in L. simpl in L.
  rewrite for_loop_app.
  destruct (for_loop_inside m body 0%nat st) as (tr & E & X); [lia|].
  rewrite Nat.add_0_r in E. rewrite E. simpl.
  rewrite (loop_body_reliable w dir prompt _ _ e _ Hw cs_nonzero). simpl.
  replace (m * c + List.length body)%nat with (m * c + (c - 1))%nat by lia.
  rewrite boundary_last by exact Hc. simpl.
  eexists. split.
  - rewrite cursor_after_app. reflexivity.
  - rewrite !exports_app, X. simpl.
    replace (exports (generate_events prompt e)) with (@nil (str * AudioSegment))
      by (unfold generate_events; now destruct (nonempty (strip (text e)))).
    simpl. rewrite run_audio_app, <- app_assoc. simpl. unfold cue_audio.
    rewrite !app_nil_r.
    now replace (m * c + (c - 1))%nat with (m * c + List.length body)%nat by lia.
Qed.

(** Full chunks in a row, starting with an empty buffer. *)
Lemma for_loop_full_chunks : forall chunks m prev part,
  Forall (fun ch => List.length ch = c) chunks ->
  exists tr,
    for_loop w dir prompt (Z.of_nat c) (m * c)%nat (List.concat chunks)
      {| final_audio := []; previous_end_time := prev; part_number := part |}
    = (tr, Ok {| final_audio := [];
                 previous_end_time := cursor_after prev (List.concat chunks);
                 part_number := (part + Z.of_nat (List.length chunks))%Z |})
    /\ exports tr = chunk_exports w dir prompt prev (m * c) part chunks.
Proof.
  induction chunks as [|ch chunks IH]; intros m prev part F; simpl.
  - exists []. simpl. split; [|reflexivity].
    now rewrite Z.add_0_r.
  - apply Forall_cons_iff in F as [L F'].
    rewrite for_loop_app.
    destruct (for_loop_full_chunk m ch
                {| final_audio := []; previous_end_time := prev; part_number := part |} L)
      as (tr1 & E1 & X1).
    rewrite E1. simpl in X1 |- *.
    replace (m * c + List.length ch)%nat with (S m * c)%nat by (rewrite L; lia).
    destruct (IH (S m) (cursor_after prev ch) (part + 1)%Z F') as (tr2 & E2 & X2).
    rewrite E2.
    exists (tr1 ++ tr2). split.
    + rewrite cursor_after_app. do 3 f_equal. lia.
    + rewrite exports_app, X1, X2. simpl.
      now replace (m * c + List.length ch)%nat with (S m * c)%nat by (rewrite L; lia).
Qed.

(** The whole timeline: one unit per full chunk, then one more for the
    remaining cues when their audio has a length. *)
Lemma timeline_chunked chunks rest :
  Forall (fun ch => List.length ch = c) chunks ->
  (List.length rest < c)%nat ->
  let n := List.length chunks in
  let tail := run_audio w prompt (cursor_after 0 (List.concat chunks)) (n * c) rest in
  exists tr,
    timeline w dir prompt (Z.of_nat c) (List.concat chunks ++ rest) = (tr, Ok tt)
    /\ exports tr
       = chunk_exports w dir prompt 0 0 1 chunks
         ++ (if (0 <? audio_len (SAMPLE_RATE w) tail)%Z
             then [(output_path dir (1 + Z.of_nat n), tail)]
             else []).
Proof.
  intros F R. cbv zeta. unfold timeline. rewrite for_loop_app.
  destruct (for_loop_full_chunks chunks 0%nat 0%Q 1%Z F) as (tr1 & E1 & X1).
  simpl in E1. unfold initial_state. rewrite E1. clear E1.
  assert (L : List.length (List.concat chunks) = (List.length chunks * c)%nat).
  { clear -F. induction F as [|ch chunks L _ IH]; simpl; [reflexivity|].
    rewrite length_app, IH, L. reflexivity. }
  simpl. rewrite L.
  match goal with |- context [for_loop _ _ _ _ _ rest ?s1] =>
    destruct (for_loop_inside (List.length chunks) rest 0%nat s1) as (tr2 & E2 & X2); [lia|] end.
  rewrite Nat.add_0_r in E2. rewrite E2. clear E2. simpl.
  unfold save_remaining. simpl.
  destruct (0 <? audio_len _ _)%Z.
  - destruct Hw as [_ Hx]. simpl. rewrite Hx. simpl.
    eexists. split; [reflexivity|].
    rewrite !exports_app, X1, X2, app_nil_r. reflexivity.
  - simpl. eexists. split; [reflexivity|].
    rewrite !exports_app, X1, X2, app_nil_r. reflexivity.
Qed.

End Chunks.


Lemma firstn_plus {A} (n m : nat) : forall l : list A,
  firstn (n + m) l = firstn n l ++ firstn m (skipn n l).
Proof.
  induction n as [|n IH]; intros [|x l]; simpl; try reflexivity.
  - now rewrite firstn_nil.
  - now rewrite IH.
Qed.

(** Any list of cues is full chunks followed by fewer than [c] cues. *)
Lemma chunks_exist {A} (c : nat) : forall k r (l : list A),
  List.length l = (k * c + r)%nat ->
  exists chunks,
    firstn (k * c) l = List.concat chunks
    /\ Forall (fun ch => List.length ch = c) chunks
    /\ List.length chunks = k.
Proof.
  induction k as [|k IH]; intros r l L.
  - exists []. simpl. auto.
  - destruct (IH r (skipn c l)) as (chunks & E & F & N).
    { rewrite length_skipn. lia. }
    exists (firstn c l :: chunks). split; [|split].
    + simpl List.concat. rewrite <- E.
      replace (S k * c)%nat with (c + k * c)%nat by lia.
      rewrite firstn_plus. reflexivity.
    + constructor; [|exact F]. rewrite length_firstn. lia.
    + simpl. now rewrite N.
Qed.


(** ** The remaining audio *)


(** ** 250 cues in chunks of 100 *)


(** ** The two-cue scenario *)





(** ** Concrete runs *)

Lemma demo_world_reliable : reliable demo_world.
Proof. split; intros; [eexists|]; reflexivity. Qed.

Lemma field_12 : field 2 (s "12").
Proof. split; [reflexivity|repeat constructor]. Qed.

Lemma field_34 : field 2 (s "34").
Proof. split; [reflexivity|repeat constructor]. Qed.

Lemma field_56 : field 2 (s "56").
Proof. split; [reflexivity|repeat constructor]. Qed.

Lemma field_789 : field 3 (s "789").
Proof. split; [reflexivity|repeat constructor]. Qed.

(** The string primitives on inputs whose results the interpreter gives. *)
Example split_examples :
  split (s "ab") (s "xabyabab") = [s "x"; s "y"; s ""; s ""]
  /\ split (s "aa") (s "aaa") = [s ""; s "a"]
  /\ split (s "ab") (s "") = [s ""]
  /\ split [nl; nl] (s "a" ++ [nl; nl; nl] ++ s "b") = [s "a"; nl :: s "b"]
  /\ split arrow (s "a --> b --> c") = [s "a"; s "b"; s "c"].
Proof. repeat split; reflexivity. Qed.

Example strip_examples :
  strip (s "  a b  ") = s "a b"
  /\ strip ([ascii_of_nat 9; ascii_of_nat 28; ascii_of_nat 133; ascii_of_nat 160]
            ++ s "a" ++ [nl; ascii_of_nat 13; ascii_of_nat 31]) = s "a"
  /\ strip (s "   ") = s "".
Proof. repeat split; reflexivity. Qed.

Example py_int_examples :
  map py_int [s "12"; s " 12 "; s "+12"; s "-12"; s "1_2"; s "007"; s "-0";
              [ascii_of_nat 133; ascii_of_nat 53]; [ascii_of_nat 160; ascii_of_nat 53]]
  = [Ok 12; Ok 12; Ok 12; Ok (-12); Ok 12; Ok 7; Ok 0; Ok 5; Ok 5]%Z
  /\ map py_int [s ""; s "_12"; s "12_"; s "1__2"; s "+"; s "+-1"; s "- 1";
                 s "1.0"; s "12:"; [ascii_of_nat 28; ascii_of_nat 53]]
     = repeat (Raise ValueError) 10.
Proof. split; reflexivity. Qed.

Example py_round_examples :
  map py_round [1 # 2; 3 # 2; 5 # 2; -1 # 2; 7 # 10; -7 # 10; 0]%Q
  = [0; 2; 2; 0; 1; -1; 0]%Z.
Proof. reflexivity. Qed.

Example output_path_examples :
  output_path (s "out") 1 = s "out/output_part_1.wav"
  /\ output_path (s "out/") 12 = s "out/output_part_12.wav"
  /\ output_path (s "") 3 = s "output_part_3.wav".
Proof. repeat split; reflexivity. Qed.

(** A file of three blocks, the second of two lines only. *)
Example parse_content_example :
  parse_content
    (s "1" ++ [nl] ++ s "00:00:00,000 --> 00:00:01,000" ++ [nl] ++ s "hi" ++ [nl; nl]
     ++ short_block ++ [nl; nl]
     ++ s "2" ++ [nl] ++ s "00:00:01,002 --> 00:00:01,500" ++ [nl] ++ s "a" ++ [nl]
     ++ s " b " ++ [nl])
  = Ok [ {| idx := s "1"; start_time := 0.000; end_time := 1.000; text := s "hi" |};
         {| idx := s "2"; start_time := 1.002; end_time := 1.500; text := s "a  b" |} ].
Proof. vm_compute. reflexivity. Qed.

(** A whole run on a file of two blocks with [chunk_size = 1]: each cue is
    exported on its own, the second after 2 ms (48 frames) of silence. *)
Example srt_to_audio_example :
  let run := srt_to_audio two_block_world (s "in.srt") (s "out") (s "v2/en_speaker_6") 1 in
  snd run = Ok tt
  /\ map (fun ev => match ev with EExport _ _ => 1%nat | _ => 0%nat end) (fst run)
     = [0; 0; 0; 0; 1; 0; 0; 1; 0; 0]%nat
  /\ map (fun u => (fst u, List.length (snd u))) (exports (fst run))
     = [(s "out/output_part_1.wav", 48%nat); (s "out/output_part_2.wav", 96%nat)].
Proof. repeat split; vm_compute; reflexivity. Qed.

(** C9 at a path that does not exist. *)
Lemma missing_input_fails_first_witness :
  path_exists empty_world (s "missing.srt") = false
  /\ srt_to_audio empty_world (s "missing.srt") (s "out") (s "v2/en_speaker_6") 100
     = ([EExists (s "missing.srt")],
        Raise (FileNotFoundError (s "SRT file not found: missing.srt"))).
Proof.
  split; [reflexivity|].
  apply (missing_input_fails_first empty_world (s "missing.srt") (s "out")
           (s "v2/en_speaker_6") 100).
  reflexivity.
Defined.

(** C5 at [12:34:56,789]. *)
Lemma timestamp_to_seconds_witness :
  exists t,
    time_to_seconds (s "12:34:56,789") = Ok t
    /\ (t == 12 * 3600 + 34 * 60 + 56 + 789 / 1000)%Q.
Proof.
  destruct (timestamp_to_seconds (s "12") (s "34") (s "56") (s "789")
              field_12 field_34 field_56 field_789) as (t & E & V & _).
  exists t. split; [exact E|]. rewrite V. reflexivity.
Defined.


(** C4 at a cue that starts 2 s before the cursor. *)
Lemma gap_clamped_witness :
  (start_time early_cue < previous_end_time state_after_B)%Q
  /\ silence_duration (start_time early_cue) (previous_end_time state_after_B) = 0%Q
  /\ generate_silence
       (silence_duration (start_time early_cue) (previous_end_time state_after_B))
       (SAMPLE_RATE demo_world) = [].
Proof.
  assert (H : (start_time early_cue < previous_end_time state_after_B)%Q) by reflexivity.
  split; [exact H|].
  destruct (gap_clamped demo_world (s "out") (s "v") 100 2 early_cue state_after_B)
    as (_ & _ & C & _).
  destruct (C H) as (G & S & _). split; [exact G|exact S].
Defined.

(** C6 in the demo world: after [cue_A] and [cue_B] the cursor is 4. *)
Lemma cursor_is_last_end_time_witness :
  exists tr st',
    for_loop demo_world (s "out") (s "v") 100 0 ([cue_A] ++ [cue_B]) initial_state
    = (tr, Ok st')
    /\ previous_end_time st' = 4%Q.
Proof.
  destruct (cursor_is_last_end_time demo_world (s "out") (s "v") 100) as (_ & _ & C).
  exact (C demo_world_reliable ltac:(discriminate) [cue_A] cue_B).
Defined.





(** * Further properties of the parser *)

(** ** More on stripping and splitting *)

Lemma lstrip_blank p y : blank p -> lstrip (p ++ y) = lstrip y.
Proof.
  induction 1 as [|c p Hc _ IH]; [reflexivity|]. simpl. now rewrite Hc.
Qed.

Lemma lstrip_ink x : ink_first x -> lstrip x = x.
Proof. destruct x as [|a x]; [contradiction|]. simpl. now intros ->. Qed.

Lemma blank_rev p : blank p -> blank (rev p).
Proof. unfold blank. apply Forall_rev. Qed.

(** White space around a text that begins and ends with ink is all that
    [strip] removes. *)
Lemma strip_pad p x q :
  blank p -> blank q -> x = [] \/ (ink_first x /\ ink_last x) ->
  strip (p ++ x ++ q) = x.
Proof.
  intros Hp Hq Hx. unfold strip, rstrip. rewrite lstrip_blank by exact Hp.
  destruct Hx as [-> | [F L]].
  - assert (E : lstrip q = []).
    { rewrite <- (app_nil_r q). now rewrite lstrip_blank. }
    simpl. rewrite E. reflexivity.
  - rewrite (lstrip_ink (x ++ q)) by (destruct x; [contradiction|exact F]).
    rewrite rev_app_distr, lstrip_blank by now apply blank_rev.
    rewrite (lstrip_ink _ L). apply rev_involutive.
Qed.

Lemma strip_ink x : ink_first x -> ink_last x -> strip x = x.
Proof.
  intros F L.
  pose proof (strip_pad [] x [] (Forall_nil _) (Forall_nil _) (or_intror (conj F L))) as E.
  simpl in E. now rewrite app_nil_r in E.
Qed.

Lemma strip_blank x : blank x -> strip x = [].
Proof.
  intros B.
  pose proof (strip_pad x [] [] B (Forall_nil _) (or_introl eq_refl)) as E.
  simpl in E. now rewrite app_nil_r in E.
Qed.

(** A stripped string is empty, or begins and ends with ink. *)
Lemma strip_edges x : strip x = [] \/ (ink_first (strip x) /\ ink_last (strip x)).
Proof.
  destruct (strip_last x) as [E | (y & z & E & N)]; [now left|]. right.
  split.
  - destruct (lstrip_head x) as [E0 | (a & u & E0 & Na)].
    + unfold strip, rstrip in E. rewrite E0 in E. simpl in E.
      destruct y; discriminate.
    + destruct (lstrip_suffix (rev (lstrip x))) as [q Q].
      apply (f_equal (@rev ascii)) in Q. rewrite rev_involutive, rev_app_distr in Q.
      change (rev (lstrip (rev (lstrip x)))) with (strip x) in Q.
      rewrite E0 in Q. rewrite E in *.
      destruct y as [|b y]; simpl in Q |- *; injection Q as <- _; exact Na.
  - unfold ink_last. rewrite E, rev_app_distr. exact N.
Qed.

Lemma strip_idempotent x : strip (strip x) = strip x.
Proof.
  destruct (strip_edges x) as [-> | [F L]]; [reflexivity|]. now apply strip_ink.
Qed.

Lemma strip_incl x c : In c (strip x) -> In c x.
Proof.
  destruct (strip_inside x) as (p & q & E). intros I. rewrite E.
  apply in_or_app. right. apply in_or_app. now left.
Qed.

(** No line of a text holds a line feed. *)
Lemma split_char_lines c x l : In l (split [c] x) -> ~ In c l.
Proof.
  unfold split. revert l. induction x as [|a x IH]; intros l.
  - simpl. intros [<- | []]. tauto.
  - cbn [split_from starts_with List.length Nat.sub].
    destruct (Ascii.eqb_spec c a) as [-> | N]; cbn [andb].
    + intros [<- | I]; [tauto|]. now apply IH.
    + pose proof (split_from_nonempty [c] x 0) as NE.
      destruct (split_from [c] 0 x) as [|h t]; [contradiction|].
      cbn [push]. intros [<- | I].
      * intros [E | I]; [congruence|]. apply (IH h); [now left|exact I].
      * apply IH. now right.
Qed.

Lemma join_no_char c sep parts :
  ~ In c sep -> (forall l, In l parts -> ~ In c l) -> ~ In c (join sep parts).
Proof.
  intros Hs. induction parts as [|p parts IH]; intros H; [tauto|].
  destruct parts as [|p' parts]; [apply H; now left|].
  cbn [join]. intros I. apply in_app_or in I as [I | I].
  - exact (H p (or_introl eq_refl) I).
  - apply in_app_or in I as [I | I]; [exact (Hs I)|].
    apply IH; [|exact I]. intros l Il. apply H. now right.
Qed.

(** Splitting on a character undoes joining with it. *)
Lemma split_char_of_join c parts :
  parts <> [] -> (forall l, In l parts -> ~ In c l) ->
  split [c] (join [c] parts) = parts.
Proof.
  induction parts as [|p parts IH]; intros NE H; [contradiction|].
  destruct parts as [|p' parts].
  - cbn [join]. apply (split_no_sep c []). apply H. now left.
  - cbn [join]. rewrite (split_app_sep c [] p) by (apply H; now left).
    f_equal. apply IH; [discriminate|]. intros l I. apply H. now right.
Qed.

(** ** What the parser returns *)

Lemma parse_blocks_inv blocks : forall acc cues,
  parse_blocks blocks acc = Ok cues -> cues = acc ++ kept_entries blocks.
Proof.
  induction blocks as [|b blocks IH]; intros acc cues H; simpl in H.
  - injection H as <-. unfold kept_entries. simpl. now rewrite app_nil_r.
  - unfold kept_entries. cbn [flat_map].
    destruct (parse_block b) as [[e|]|x]; [| |discriminate].
    + rewrite (IH _ _ H), <- app_assoc. reflexivity.
    + exact (IH _ _ H).
Qed.

Lemma kept_entries_from blocks e :
  In e (kept_entries blocks) -> exists b, In b blocks /\ parse_block b = Ok (Some e).
Proof.
  unfold kept_entries. rewrite in_flat_map. intros (b & I & H). exists b.
  split; [exact I|].
  destruct (parse_block b) as [[e'|]|x]; try contradiction.
  destruct H as [-> | []]. reflexivity.
Qed.

Lemma kept_entries_length blocks :
  (List.length (kept_entries blocks) <= List.length blocks)%nat.
Proof.
  unfold kept_entries. induction blocks as [|b blocks IH]; [apply le_n|].
  cbn [flat_map]. rewrite length_app.
  destruct (parse_block b) as [[e|]|x]; simpl; lia.
Qed.

Lemma parse_block_fields block e :
  parse_block block = Ok (Some e) ->
  (3 <= List.length (block_lines block))%nat
  /\ idx e = strip (nth 0 (block_lines block) [])
  /\ text e = strip (join (s " ") (skipn 2 (block_lines block)))
  /\ parse_time_range (time_range_of block) = Ok (start_time e, end_time e).
Proof.
  unfold parse_block, time_range_of.
  destruct (Nat.ltb_spec (List.length (block_lines block)) 3) as [Lt | Ge]; [discriminate|].
  destruct (negb _); [discriminate|].
  destruct (parse_time_range _) as [[t1 t2] | x]; [|discriminate].
  cbn [rbind]. intros H. injection H as <-. cbn [idx text start_time end_time fst snd].
  auto.
Qed.

Lemma skipn_incl {A} n (l : list A) x : In x (skipn n l) -> In x l.
Proof.
  revert l. induction n as [|n IH]; intros l; [trivial|].
  destruct l as [|a l]; [trivial|]. simpl. intros I. right. now apply IH.
Qed.

Lemma parse_block_clean block e : parse_block block = Ok (Some e) -> clean_cue e.
Proof.
  intros H. pose proof (parsed_text_not_blank block e H) as NB.
  destruct (parse_block_fields block e H) as (L & I & T & _).
  assert (ST : strip (text e) = text e) by (rewrite T; apply strip_idempotent).
  unfold clean_cue. rewrite ST in NB. split; [exact NB|]. split; [exact ST|].
  split; [|split].
  - rewrite T. intros N. apply strip_incl in N. revert N.
    apply join_no_char; [intros [E | []]; discriminate|].
    intros l Il. apply (split_char_lines nl (strip block)).
    now apply skipn_incl in Il.
  - rewrite I. apply strip_idempotent.
  - rewrite I. intros N. apply strip_incl in N. revert N.
    apply (split_char_lines nl (strip block)). apply nth_In. unfold block_lines in L. lia.
Qed.

Lemma parse_content_clean content cues :
  parse_content content = Ok cues -> Forall clean_cue cues.
Proof.
  unfold parse_content. intros H. apply parse_blocks_inv in H. simpl in H. subst cues.
  apply Forall_forall. intros e I.
  destruct (kept_entries_from _ _ I) as (b & _ & P). exact (parse_block_clean b e P).
Qed.

(** X2. Every cue [parse_srt] returns has a text that is not empty, has no
    white space around it and is on one line (the lines of the block are
    joined with blanks), and an index with no white space around it and on
    one line; there are at most as many cues as blocks. *)
Theorem parsed_cues_are_clean content cues :
  parse_content content = Ok cues ->
  Forall clean_cue cues
  /\ (List.length cues <= List.length (subtitle_blocks content))%nat.
Proof.
  intros H. split; [exact (parse_content_clean content cues H)|].
  unfold parse_content in H. apply parse_blocks_inv in H. simpl in H. subst cues.
  apply kept_entries_length.
Qed.

(** ** An empty file *)

Lemma parse_content_blank content : blank content -> parse_content content = Ok [].
Proof.
  intros B. unfold parse_content, subtitle_blocks. now rewrite (strip_blank _ B).
Qed.

(** X1. On a file that is empty or holds white space only, [srt_to_audio]
    makes the output directory, reads the file and completes: no cue, no
    call to the synthesiser, no export, and no error whatever the
    [chunk_size], zero included. *)
Theorem blank_file_completes w path dir prompt chunk_size content :
  holds_file w path dir content ->
  blank content ->
  srt_to_audio w path dir prompt chunk_size
  = ([EExists path; EMakedirs dir; ERead path; EPrintComplete], Ok tt).
Proof.
  intros (E & D & R) B. unfold srt_to_audio, parse_srt, call. simpl.
  rewrite E, D, R. simpl. rewrite (parse_content_blank _ B). reflexivity.
Qed.

(** ** Timestamps of any width *)

Lemma time_to_seconds_millis x t :
  time_to_seconds x = Ok t -> exists z, (t * 1000 == inject_Z z)%Q.
Proof.
  unfold time_to_seconds.
  destruct (split (s ":") x) as [|a [|b [|c [|d l]]]]; try discriminate.
  destruct (split (s ",") c) as [|a' [|b' [|c' l']]]; try discriminate.
  destruct (py_int a) as [h|]; [|discriminate].
  destruct (py_int b) as [m|]; [|discriminate].
  destruct (py_int a') as [sec|]; [|discriminate].
  destruct (py_int b') as [ms|]; [|discriminate].
  cbn [rbind]. intros H. injection H as <-.
  exists ((h * 3600 + m * 60 + sec) * 1000 + ms)%Z.
  repeat (rewrite inject_Z_plus || rewrite inject_Z_mult).
  change (inject_Z 1000) with 1000%Q. field.
Qed.

(** X4. [time_to_seconds] checks no range and no width: for fields of one
    to nine digits it returns [H*3600 + M*60 + S + ms/1000], so minutes or
    seconds above 59 are accepted and the last field counts thousandths
    whatever its width ([,5] is 5 ms); and whatever string it accepts, the
    result is a whole number of milliseconds. *)
Theorem time_to_seconds_any_width :
  (forall h m sec ms,
      short_digits h -> short_digits m -> short_digits sec -> short_digits ms ->
      exists t,
        time_to_seconds (h ++ s ":" ++ m ++ s ":" ++ sec ++ s "," ++ ms) = Ok t
        /\ (t * 1000
            == inject_Z ((decimal h * 3600 + decimal m * 60 + decimal sec) * 1000
                         + decimal ms))%Q)
  /\ (forall x t, time_to_seconds x = Ok t -> exists z, (t * 1000 == inject_Z z)%Q).
Proof.
  split; [|exact time_to_seconds_millis].
  intros h m sec ms [Hh _] [Hm _] [Hs _] [Hms _].
  exists (seconds_of h m sec ms). split.
  - now apply time_to_seconds_timestamp.
  - unfold seconds_of. repeat (rewrite inject_Z_plus || rewrite inject_Z_mult).
    change (inject_Z 1000) with 1000%Q. field.
Qed.

(** ** Files in the standard layout *)

Lemma digit_not_isspace c : is_digit c = true -> isspace c = false.
Proof.
  unfold is_digit, digit_value, isspace.
  destruct ((48 <=? nat_of_ascii c)%nat && (nat_of_ascii c <=? 57)%nat) eqn:E; [|discriminate].
  intros _. apply andb_true_iff in E as [E1 E2].
  apply Nat.leb_le in E1, E2.
  repeat (apply orb_false_iff; split);
    try (apply andb_false_iff; right; apply Nat.leb_gt; lia);
    apply Nat.eqb_neq; lia.
Qed.

Lemma ink_first_app x y : ink_first x -> ink_first (x ++ y).
Proof. destruct x; [contradiction|trivial]. Qed.

Lemma ink_last_app x y : ink_last y -> ink_last (x ++ y).
Proof. unfold ink_last. rewrite rev_app_distr. apply ink_first_app. Qed.

Lemma digits_ink x : digits x -> ink_first x /\ ink_last x.
Proof.
  intros [N F]. split.
  - destruct x as [|a x]; [contradiction|]. simpl. apply digit_not_isspace.
    now apply Forall_cons_iff in F as [D _].
  - unfold ink_last. apply Forall_rev in F.
    destruct (rev x) as [|a r] eqn:E.
    + apply (f_equal (@rev ascii)) in E. rewrite rev_involutive in E. contradiction.
    + simpl. apply digit_not_isspace. now apply Forall_cons_iff in F as [D _].
Qed.

Lemma timestamp_no_nl h m sec ms :
  digits h -> digits m -> digits sec -> digits ms ->
  ~ In nl (timestamp h m sec ms).
Proof.
  intros [_ Hh] [_ Hm] [_ Hs] [_ Hms]. unfold timestamp. intros I.
  change nl with (ascii_of_nat 10) in I.
  repeat (apply in_app_or in I as [I | I]);
    try (revert I; apply digits_no_char; [assumption|lia]);
    destruct I as [I | []]; discriminate.
Qed.

Lemma stamp_ok_digits t :
  stamp_ok t -> digits (hh t) /\ digits (mm t) /\ digits (ss t) /\ digits (mmm t).
Proof.
  intros (A & B & C & D).
  repeat split; eapply field_digits; try eassumption; lia.
Qed.

Lemma contains_here sub x : starts_with sub x = true -> contains sub x = true.
Proof. intros H. destruct x; simpl; rewrite H; reflexivity. Qed.

Lemma range_text_facts b :
  stamp_ok (b_from b) -> stamp_ok (b_to b) ->
  ~ In nl (range_text b)
  /\ strip (range_text b) = range_text b
  /\ contains arrow (range_text b) = true
  /\ parse_time_range (range_text b)
     = Ok (stamp_seconds (b_from b), stamp_seconds (b_to b)).
Proof.
  intros F T.
  destruct (stamp_ok_digits _ F) as (F1 & F2 & F3 & F4).
  destruct (stamp_ok_digits _ T) as (T1 & T2 & T3 & T4).
  unfold range_text, stamp_text. split; [|split; [|split]].
  - intros I. apply in_app_or in I as [I | I].
    + revert I. now apply timestamp_no_nl.
    + apply in_app_or in I as [I | I].
      * revert I. vm_compute. intuition discriminate.
      * revert I. now apply timestamp_no_nl.
  - apply strip_ink.
    + apply ink_first_app. unfold timestamp. apply ink_first_app.
      now apply digits_ink.
    + rewrite app_assoc. apply ink_last_app. unfold timestamp.
      rewrite !app_assoc. apply ink_last_app. now apply digits_ink.
  - apply contains_suffix. apply contains_here, starts_with_app.
  - now apply parse_time_range_timestamps.
Qed.

Lemma join_ink_last sep parts :
  parts <> [] -> ink_last (last parts []) -> ink_last (join sep parts).
Proof.
  induction parts as [|p parts IH]; intros NE L; [contradiction|].
  destruct parts as [|p' parts]; [exact L|].
  cbn [join]. apply ink_last_app, ink_last_app. apply IH; [discriminate|exact L].
Qed.

Lemma join_ink_first sep p parts : ink_first p -> ink_first (join sep (p :: parts)).
Proof.
  intros F. destruct parts; [exact F|]. cbn [join]. now apply ink_first_app.
Qed.

Lemma block_text_edges b :
  block_ok b -> ink_first (block_text b) /\ ink_last (block_text b).
Proof.
  intros (F & _ & _ & _ & _ & NE & _ & L). unfold block_text. split.
  - now apply ink_first_app.
  - do 4 apply ink_last_app. now apply join_ink_last.
Qed.

Lemma block_lines_block_text b :
  block_ok b -> block_lines (block_text b) = b_number b :: range_text b :: b_lines b.
Proof.
  intros Hb. destruct (block_text_edges b Hb) as [F L].
  destruct Hb as (_ & _ & Nn & SF & ST & NE & FL & _).
  unfold block_lines. rewrite (strip_ink _ F L). unfold block_text.
  rewrite (split_app_sep nl [] (b_number b)) by exact Nn.
  rewrite (split_app_sep nl [] (range_text b))
    by (apply (range_text_facts b SF ST)).
  rewrite split_char_of_join; [reflexivity|exact NE|].
  intros l I. rewrite Forall_forall in FL. now apply FL.
Qed.

(** A block in the standard layout gives its cue. *)
Lemma parse_block_block_text b :
  block_ok b -> parse_block (block_text b) = Ok (Some (block_cue b)).
Proof.
  intros Hb. unfold parse_block. rewrite (block_lines_block_text b Hb).
  destruct Hb as (F & L & _ & SF & ST & NE & _ & _).
  destruct (range_text_facts b SF ST) as (_ & S & C & P).
  destruct (b_lines b) as [|l ls] eqn:E; [contradiction|].
  cbn [List.length Nat.ltb Nat.leb nth skipn].
  rewrite S, C, P, (strip_ink _ F L). cbn [negb rbind fst snd].
  unfold block_cue. now rewrite E.
Qed.

Lemma single_spaced_app x y :
  ~ In nl x -> single_spaced y -> single_spaced (x ++ y).
Proof.
  induction x as [|a x IH]; intros N S; [exact S|]. cbn [app single_spaced]. split.
  - intros ->. exfalso. apply N. now left.
  - apply IH; [|exact S]. intros I. apply N. now right.
Qed.

Lemma single_spaced_nl y :
  match y with d :: _ => d <> nl | [] => False end ->
  single_spaced y -> single_spaced (nl :: y).
Proof. intros H S. cbn [single_spaced]. now split. Qed.

Lemma single_spaced_lines parts :
  parts <> [] -> Forall (fun l => l <> [] /\ ~ In nl l) parts ->
  single_spaced (join [nl] parts)
  /\ match join [nl] parts with d :: _ => d <> nl | [] => False end.
Proof.
  induction parts as [|p parts IH]; intros NE F; [contradiction|].
  apply Forall_cons_iff in F as [[Np Nl] F].
  assert (H : match p with d :: _ => d <> nl | [] => False end).
  { destruct p as [|d p]; [contradiction|]. intros ->. apply Nl. now left. }
  destruct parts as [|p' parts].
  - cbn [join]. split; [|exact H].
    rewrite <- (app_nil_r p). apply single_spaced_app; [exact Nl|exact I].
  - destruct (IH ltac:(discriminate) F) as [S D]. cbn [join]. split.
    + apply single_spaced_app; [exact Nl|]. apply single_spaced_nl; assumption.
    + destruct p; [contradiction|exact H].
Qed.

Lemma block_text_single_spaced b : block_ok b -> single_spaced (block_text b).
Proof.
  intros (F & _ & Nn & SF & ST & NE & FL & _). unfold block_text.
  destruct (range_text_facts b SF ST) as (Nr & S & _ & _).
  destruct (single_spaced_lines _ NE FL) as [SJ DJ].
  apply single_spaced_app; [exact Nn|]. apply single_spaced_nl.
  - pose proof (strip_edges (range_text b)) as [E | [I _]]; rewrite S in *.
    + destruct (stamp_ok_digits _ SF) as ([N _] & _). unfold range_text, stamp_text, timestamp in E.
      destruct (hh (b_from b)); [contradiction|discriminate].
    + destruct (range_text b) as [|d r]; [contradiction|]. cbn [app].
      intros ->. apply Nr. now left.
  - apply single_spaced_app; [exact Nr|]. now apply single_spaced_nl.
Qed.

(** An empty line ends a block exactly where the blocks were joined. *)
Lemma split_blank_line b y :
  single_spaced b ->
  split [nl; nl] (b ++ [nl; nl] ++ y) = b :: split [nl; nl] y.
Proof.
  unfold split. induction b as [|c b IH]; intros S.
  - cbn [app split_from starts_with List.length Nat.sub].
    rewrite !Ascii.eqb_refl. reflexivity.
  - destruct S as [Sc S]. cbn [app split_from starts_with].
    assert (N : (Ascii.eqb nl c
                 && match b ++ nl :: nl :: y with
                    | [] => false
                    | b0 :: x' => Ascii.eqb nl b0 && true
                    end) = false).
    { destruct (Ascii.eqb_spec nl c) as [<- | _]; [|reflexivity].
      specialize (Sc eq_refl). destruct b as [|d b]; [contradiction|].
      cbn [app andb]. destruct (Ascii.eqb_spec nl d) as [<- | _]; [contradiction|reflexivity]. }
    cbn [app] in N. rewrite N. cbn [app] in IH. rewrite (IH S). reflexivity.
Qed.

Lemma split_no_blank_line b : single_spaced b -> split [nl; nl] b = [b].
Proof.
  unfold split. induction b as [|c b IH]; intros S; [reflexivity|].
  destruct S as [Sc S]. cbn [split_from starts_with].
  assert (N : (Ascii.eqb nl c
               && match b with
                  | [] => false
                  | b0 :: x' => Ascii.eqb nl b0 && true
                  end) = false).
  { destruct (Ascii.eqb_spec nl c) as [<- | _]; [|reflexivity].
    specialize (Sc eq_refl). destruct b as [|d b]; [contradiction|].
    cbn [andb]. destruct (Ascii.eqb_spec nl d) as [<- | _]; [contradiction|reflexivity]. }
  rewrite N, (IH S). reflexivity.
Qed.

Lemma split_blank_lines_of_join blocks :
  blocks <> [] -> Forall single_spaced blocks ->
  split [nl; nl] (join [nl; nl] blocks) = blocks.
Proof.
  induction blocks as [|b blocks IH]; intros NE F; [contradiction|].
  apply Forall_cons_iff in F as [S F]. destruct blocks as [|b' blocks].
  - cbn [join]. now apply split_no_blank_line.
  - cbn [join]. rewrite split_blank_line by exact S. f_equal.
    apply IH; [discriminate|exact F].
Qed.

Lemma kept_entries_block_texts blocks :
  Forall block_ok blocks -> kept_entries (map block_text blocks) = map block_cue blocks.
Proof.
  induction 1 as [|b blocks Hb _ IH]; [reflexivity|].
  unfold kept_entries in *. cbn [map flat_map].
  now rewrite (parse_block_block_text b Hb), IH.
Qed.

(** X3. A file in the standard layout parses to exactly its cues: blocks
    separated by one empty line, each a number line, a line
    [HH:MM:SS,mmm --> HH:MM:SS,mmm] and one or more non-empty lines of text,
    with any white space before the first block and after the last, give one
    cue per block, in order, with the number as index, the two times in
    seconds and the text lines joined by single blanks. *)
Theorem standard_file_parses blocks before after :
  Forall block_ok blocks -> blank before -> blank after ->
  parse_content (before ++ srt_text blocks ++ after) = Ok (map block_cue blocks).
Proof.
  intros F Bp Bq. unfold parse_content, subtitle_blocks, srt_text.
  destruct blocks as [|b blocks].
  - cbn [map join]. rewrite strip_pad; [reflexivity|exact Bp|exact Bq|now left].
  - rewrite strip_pad; [|exact Bp|exact Bq|right].
    + rewrite split_blank_lines_of_join.
      * rewrite parse_blocks_ok.
        -- now rewrite kept_entries_block_texts.
        -- intros t I. apply in_map_iff in I as (b' & <- & I).
           rewrite Forall_forall in F. rewrite (parse_block_block_text b' (F b' I)).
           now eexists.
      * discriminate.
      * apply Forall_map. apply Forall_impl with (2 := F).
        exact block_text_single_spaced.
    + split.
      * cbn [map]. apply join_ink_first.
        apply block_text_edges. now apply Forall_cons_iff in F as [Hb _].
      * apply join_ink_last; [discriminate|].
        destruct (exists_last (l := b :: blocks)) as (l' & z & E); [discriminate|].
        rewrite E, map_app. cbn [map]. rewrite last_last.
        apply block_text_edges. rewrite Forall_forall in F. apply F.
        rewrite E. apply in_or_app. right. now left.
Qed.

(** * Further properties of the run *)

(** ** Failures *)


(** X6. The first failure ends the run: when the body of the loop raises at
    a cue, after the cues before it were processed, the whole timeline ends
    there with that exception; the audio buffered since the last export is
    not exported, no later cue is processed and nothing more is printed.
    In particular so when the synthesiser raises for a cue. *)
Theorem first_failure_ends_run w dir prompt cs done e rest tr st :
  for_loop w dir prompt cs 0 done initial_state = (tr, Ok st) ->
  (forall tr_e x,
      loop_body w dir prompt cs (List.length done) e st = (tr_e, Raise x) ->
      timeline w dir prompt cs (done ++ e :: rest) = (tr ++ tr_e, Raise x))
  /\ (forall x,
        nonempty (strip (text e)) = true ->
        generate_audio w (List.length done) (text e) prompt = Raise x ->
        timeline w dir prompt cs (done ++ e :: rest)
        = (tr ++ [EGenerate (text e) prompt], Raise x)
        /\ exports (tr ++ [EGenerate (text e) prompt]) = exports tr).
Proof.
  intros F.
  assert (G : forall tr_e x,
      loop_body w dir prompt cs (List.length done) e st = (tr_e, Raise x) ->
      timeline w dir prompt cs (done ++ e :: rest) = (tr ++ tr_e, Raise x)).
  { intros tr_e x B. unfold timeline. rewrite for_loop_app, F. cbn [bind for_loop].
    rewrite Nat.add_0_l, B. reflexivity. }
  split; [exact G|].
  intros x T R. split.
  - apply G. unfold loop_body. rewrite T, R. reflexivity.
  - rewrite exports_app. simpl. apply app_nil_r.
Qed.

(** ** The calls to the synthesiser *)

Lemma generate_calls_app tr1 tr2 :
  generate_calls (tr1 ++ tr2) = generate_calls tr1 ++ generate_calls tr2.
Proof.
  induction tr1 as [|ev tr1 IH]; simpl; [reflexivity|].
  destruct ev; simpl; now rewrite IH.
Qed.

Lemma for_loop_generate_calls w dir prompt cs :
  reliable w -> cs <> 0%Z ->
  forall cues i st, exists tr st',
    for_loop w dir prompt cs i cues st = (tr, Ok st')
    /\ generate_calls tr = map (fun e => (text e, prompt)) (spoken cues).
Proof.
  intros Hw Hcs. induction cues as [|e cues IH]; intros i st.
  - exists [], st. split; reflexivity.
  - cbn [for_loop]. rewrite (loop_body_reliable w dir prompt cs i e st Hw Hcs).
    assert (C : forall tail,
      generate_calls (generate_events prompt e ++ tail)
      = map (fun e => (text e, prompt)) (spoken [e]) ++ generate_calls tail).
    { intros tail. unfold generate_events, spoken. cbn [filter].
      destruct (nonempty (strip (text e))); reflexivity. }
    match goal with |- context [if ?c then (?t1, Ok ?s1) else (?t2, Ok ?s2)] =>
      destruct c;
      [destruct (IH (S i) s1) as (tr & st' & E & G)
      |destruct (IH (S i) s2) as (tr & st' & E & G)]
    end; cbn [bind]; rewrite E; do 2 eexists; (split; [reflexivity|]).
    + rewrite <- app_assoc, C, generate_calls_app, G. cbn [generate_calls app].
      unfold spoken. cbn [filter]. destruct (nonempty (strip (text e))); reflexivity.
    + rewrite C, G.
      unfold spoken. cbn [filter]. destruct (nonempty (strip (text e))); reflexivity.
Qed.

Lemma spoken_clean cues : Forall clean_cue cues -> spoken cues = cues.
Proof.
  induction 1 as [|e cues (N & S & _) _ IH]; [reflexivity|].
  unfold spoken in *. cbn [filter]. now rewrite S, N, IH.
Qed.

(** X8. In a world where nothing fails and with a non-zero [chunk_size], a
    run over a parsed file completes, and the synthesiser is called exactly
    once for each cue of the file, in the order of the file, with the cue's
    text and the given voice: no cue that the parser returned is skipped as
    blank. *)
Theorem every_parsed_cue_is_synthesised w path dir prompt chunk_size content cues :
  holds_file w path dir content ->
  reliable w ->
  chunk_size <> 0%Z ->
  parse_content content = Ok cues ->
  exists tr,
    srt_to_audio w path dir prompt chunk_size = (tr, Ok tt)
    /\ generate_calls tr = map (fun e => (text e, prompt)) cues.
Proof.
  intros (E & D & R) Hw Hcs P.
  destruct (for_loop_generate_calls w dir prompt chunk_size Hw Hcs cues 0%nat initial_state)
    as (tr & st & F & G).
  assert (S : exists trs, save_remaining w dir st = (trs, Ok tt) /\ generate_calls trs = []).
  { unfold save_remaining. destruct (0 <? audio_len _ _)%Z.
    - destruct Hw as [_ Hx]. unfold call. cbn [bind]. rewrite Hx. cbn [bind app].
      eexists. split; reflexivity.
    - eexists. split; reflexivity. }
  destruct S as (trs & S & GS).
  exists ([EExists path; EMakedirs dir; ERead path] ++ tr ++ trs ++ [EPrintComplete]).
  split.
  - unfold srt_to_audio, parse_srt, call. cbn [bind app]. rewrite E. cbn [negb].
    rewrite D. cbn [bind app]. rewrite R. cbn [bind app]. rewrite P.
    unfold timeline. rewrite F. cbn [bind]. rewrite S. cbn [bind call app].
    rewrite ?app_nil_r, <- ?app_assoc. reflexivity.
  - cbn [app generate_calls]. rewrite !generate_calls_app, G, GS. cbn [generate_calls].
    rewrite ?app_nil_r.
    now rewrite (spoken_clean _ (parse_content_clean content cues P)).
Qed.

(** ** Chunking and the audio *)

Lemma chunk_exports_audio w dir prompt chunks : forall prev i part,
  List.concat (map snd (chunk_exports w dir prompt prev i part chunks))
  = run_audio w prompt prev i (List.concat chunks).
Proof.
  induction chunks as [|ch chunks IH]; intros prev i part; [reflexivity|].
  cbn [chunk_exports map snd List.concat]. now rewrite IH, run_audio_app.
Qed.

(** X9. Chunking changes nothing in the audio: in a world where nothing
    fails and for a positive [chunk_size], the exported parts put end to end
    are the audio of one pass over all the cues (each gap measured from the
    end of the previous cue, also across a chunk boundary), up to a last
    remainder that is left out only when its length rounds to 0 ms. *)
Theorem exported_audio_is_one_pass w dir prompt (c : nat) cues :
  reliable w -> (0 < c)%nat ->
  exists tr dropped,
    timeline w dir prompt (Z.of_nat c) cues = (tr, Ok tt)
    /\ List.concat (map snd (exports tr)) ++ dropped = run_audio w prompt 0 0 cues
    /\ (0 <? audio_len (SAMPLE_RATE w) dropped)%Z = false.
Proof.
  intros Hw Hc.
  set (k := (List.length cues / c)%nat). set (r := (List.length cues mod c)%nat).
  assert (L : List.length cues = (k * c + r)%nat).
  { unfold k, r. rewrite Nat.mul_comm. apply Nat.div_mod_eq. }
  assert (Hr : (r < c)%nat) by (apply Nat.mod_upper_bound; lia).
  destruct (chunks_exist c k r cues L) as (chunks & E & F & N).
  assert (R : (List.length (skipn (k * c) cues) < c)%nat)
    by (rewrite length_skipn; lia).
  destruct (timeline_chunked w dir prompt c Hw Hc chunks (skipn (k * c) cues) F R)
    as (tr & T & X).
  cbv zeta in X. rewrite <- E, firstn_skipn in T.
  assert (A : run_audio w prompt 0 0 cues
              = run_audio w prompt 0 0 (List.concat chunks)
                ++ run_audio w prompt (cursor_after 0 (List.concat chunks))
                     (List.length chunks * c) (skipn (k * c) cues)).
  { rewrite <- (firstn_skipn (k * c) cues) at 1. rewrite E, run_audio_app.
    do 2 f_equal. rewrite <- E, length_firstn, N. lia. }
  exists tr.
  destruct (0 <? audio_len (SAMPLE_RATE w)
                   (run_audio w prompt (cursor_after 0 (List.concat chunks))
                      (List.length chunks * c) (skipn (k * c) cues)))%Z eqn:Len.
  - exists []. split; [exact T|]. split; [|reflexivity].
    rewrite X, map_app, concat_app, chunk_exports_audio, A. cbn [map snd List.concat].
    now rewrite !app_nil_r.
  - eexists. split; [exact T|]. split; [|exact Len].
    rewrite X, app_nil_r, chunk_exports_audio, A. reflexivity.
Qed.

(** ** Unusual chunk sizes *)

Lemma mod_opp_zero a b : ((a mod (- b) =? 0) = (a mod b =? 0))%Z.
Proof.
  destruct (Z.eq_dec b 0) as [-> | Nb]; [reflexivity|].
  destruct (Z.eqb_spec (a mod b) 0) as [E | N].
  - apply Z.eqb_eq. now apply Z.mod_opp_r_z.
  - apply Z.eqb_neq. intros E. apply N.
    rewrite <- (Z.opp_involutive b). apply Z.mod_opp_r_z; [lia|exact E].
Qed.

Lemma loop_body_opp w dir prompt cs i e st :
  loop_body w dir prompt (- cs) i e st = loop_body w dir prompt cs i e st.
Proof.
  unfold loop_body. rewrite mod_opp_zero.
  replace (- cs =? 0)%Z with (cs =? 0)%Z; [reflexivity|].
  destruct (Z.eqb_spec cs 0) as [-> | N]; [reflexivity|].
  symmetry. apply Z.eqb_neq. lia.
Qed.

Lemma for_loop_opp w dir prompt cs cues : forall i st,
  for_loop w dir prompt (- cs) i cues st = for_loop w dir prompt cs i cues st.
Proof.
  induction cues as [|e cues IH]; intros i st; [reflexivity|].
  cbn [for_loop]. rewrite loop_body_opp.
  destruct (loop_body w dir prompt cs i e st) as [tr [st1 | x]]; [|reflexivity].
  cbn [bind]. now rewrite IH.
Qed.

(** X10. The sign of [chunk_size] is not checked and does not matter: a run
    with [- chunk_size] performs the same calls and ends the same way as the
    run with [chunk_size]. *)
Theorem negative_chunk_size_same_run w path dir prompt chunk_size :
  srt_to_audio w path dir prompt (- chunk_size)
  = srt_to_audio w path dir prompt chunk_size.
Proof.
  unfold srt_to_audio, timeline. cbn [call bind].
  destruct (negb (path_exists w path)); [reflexivity|].
  destruct (makedirs w dir); [|reflexivity]. cbn [bind].
  destruct (parse_srt w path) as [tr [cues | x]]; [|reflexivity]. cbn [bind].
  now rewrite for_loop_opp.
Qed.

(** X11. [chunk_size = 0] is not checked beforehand: with at least one cue
    the run raises [ZeroDivisionError] at the first cue, after the silence
    and the synthesis for that cue (when its text is not blank and the
    synthesiser answers), with no export and no later cue processed. *)
Theorem zero_chunk_size_raises w dir prompt e rest :
  nonempty (strip (text e)) = false
  \/ (exists a, generate_audio w 0 (text e) prompt = Ok a) ->
  timeline w dir prompt 0 (e :: rest)
  = (generate_events prompt e, Raise ZeroDivisionError)
  /\ exports (generate_events prompt e) = [].
Proof.
  intros H. split.
  - unfold timeline, generate_events. cbn [for_loop]. unfold loop_body.
    destruct H as [B | [a G]].
    + rewrite B. reflexivity.
    + rewrite G. destruct (nonempty (strip (text e))); reflexivity.
  - unfold generate_events. destruct (nonempty (strip (text e))); reflexivity.
Qed.

(** ** The completion message *)

Lemma loop_body_not_complete w dir prompt cs i e st :
  ~ In EPrintComplete (fst (loop_body w dir prompt cs i e st)).
Proof.
  unfold loop_body.
  destruct (nonempty (strip (text e)));
    [destruct (generate_audio w i (text e) prompt)|];
    cbn [call ret bind app];
    try (destruct (cs =? 0)%Z; cbn [raise bind app fst];
         [|destruct ((Z.of_nat i + 1) mod cs =? 0)%Z; cbn [call ret bind app fst];
           [match goal with |- context [export_wav w ?p ?b] =>
              destruct (export_wav w p b) end|]]);
    cbn [call ret raise bind app fst In]; intuition discriminate.
Qed.

Lemma for_loop_not_complete w dir prompt cs cues : forall i st,
  ~ In EPrintComplete (fst (for_loop w dir prompt cs i cues st)).
Proof.
  induction cues as [|e cues IH]; intros i st; [simpl; tauto|].
  cbn [for_loop]. pose proof (loop_body_not_complete w dir prompt cs i e st) as B.
  destruct (loop_body w dir prompt cs i e st) as [tr [st1 | x]]; cbn [bind fst] in *.
  - specialize (IH (S i) st1).
    destruct (for_loop w dir prompt cs (S i) cues st1) as [tr2 r2]. cbn [fst] in *.
    intros I. apply in_app_or in I. tauto.
  - exact B.
Qed.

Lemma timeline_complete w dir prompt cs cues :
  In EPrintComplete (fst (timeline w dir prompt cs cues))
  <-> snd (timeline w dir prompt cs cues) = Ok tt.
Proof.
  unfold timeline.
  pose proof (for_loop_not_complete w dir prompt cs cues 0 initial_state) as F.
  destruct (for_loop w dir prompt cs 0 cues initial_state) as [tr [st | x]];
    cbn [bind fst snd] in *.
  - unfold save_remaining. destruct (0 <? audio_len _ _)%Z.
    + cbn [call bind app].
      destruct (export_wav w _ _) as [[] | y]; cbn [bind app fst snd].
      * split; [reflexivity|]. intros _. apply in_or_app. right. simpl. tauto.
      * split; [|discriminate]. intros I. apply in_app_or in I as [I | I]; [tauto|].
        simpl in I. intuition discriminate.
    + cbn [ret call bind app fst snd]. split; [reflexivity|].
      intros _. apply in_or_app. right. simpl. tauto.
  - split; [tauto|discriminate].
Qed.

(** X12. [srt_to_audio] prints its completion message exactly when it
    returns normally: never after a failure of the set-up, the parser, the
    synthesiser or an export, and always at the end of a run that
    completes. *)
Theorem completion_printed_iff_returns w path dir prompt chunk_size :
  In EPrintComplete (fst (srt_to_audio w path dir prompt chunk_size))
  <-> snd (srt_to_audio w path dir prompt chunk_size) = Ok tt.
Proof.
  unfold srt_to_audio, parse_srt. cbn [call bind].
  destruct (path_exists w path); cbn [negb raise app fst snd].
  2: { split; [simpl; intuition discriminate|discriminate]. }
  destruct (makedirs w dir) as [[] | x]; cbn [bind app fst snd].
  2: { split; [simpl; intuition discriminate|discriminate]. }
  destruct (read_text w path) as [content | x]; cbn [bind app fst snd].
  2: { split; [simpl; intuition discriminate|discriminate]. }
  destruct (parse_content content) as [cues | x]; cbn [bind app fst snd].
  2: { split; [simpl; intuition discriminate|discriminate]. }
  pose proof (timeline_complete w dir prompt chunk_size cues) as T.
  destruct (timeline w dir prompt chunk_size cues) as [tr r]. cbn [fst snd] in *.
  rewrite <- T. simpl. intuition discriminate.
Qed.

(** ** Samples and silence *)








(** ** Blanks around the arrow *)

Lemma int_lstrip_blanks n y : int_lstrip (blanks n ++ y) = int_lstrip y.
Proof. induction n as [|n IH]; [reflexivity|exact IH]. Qed.

Lemma blanks_rev n : rev (blanks n) = blanks n.
Proof.
  unfold blanks. induction n as [|n IH]; [reflexivity|].
  cbn [repeat rev]. rewrite IH. symmetry. apply repeat_cons.
Qed.

(** [int] ignores the blanks around a literal. *)
Lemma py_int_padded x n k :
  digits x -> py_int (blanks n ++ x ++ blanks k) = Ok (decimal x).
Proof.
  intros D. rewrite <- (py_int_digits x D). unfold py_int.
  replace (int_strip (blanks n ++ x ++ blanks k)) with (int_strip x); [reflexivity|].
  unfold int_strip. rewrite int_lstrip_blanks.
  destruct D as [N F]. destruct x as [|c x]; [contradiction|].
  assert (Dc : is_digit c = true) by now apply Forall_cons_iff in F as [Dc _].
  rewrite (int_lstrip_digit c x Dc).
  change ((c :: x) ++ blanks k) with (c :: x ++ blanks k).
  rewrite (int_lstrip_digit c _ Dc).
  change (c :: x ++ blanks k) with ((c :: x) ++ blanks k).
  now rewrite rev_app_distr, blanks_rev, int_lstrip_blanks.
Qed.

Lemma py_int_padded_l x n : digits x -> py_int (blanks n ++ x) = Ok (decimal x).
Proof.
  intros D. rewrite <- (py_int_padded x n 0 D). cbn [blanks repeat]. now rewrite app_nil_r.
Qed.

Lemma py_int_padded_r x k : digits x -> py_int (x ++ blanks k) = Ok (decimal x).
Proof. intros D. exact (py_int_padded x 0 k D). Qed.

Lemma blanks_no_char n (k : nat) : k <> 32%nat -> (k < 256)%nat -> ~ In (ascii_of_nat k) (blanks n).
Proof.
  intros K B I. apply repeat_spec in I.
  apply (f_equal nat_of_ascii) in I. rewrite !nat_ascii_embedding in I; lia.
Qed.

Lemma time_to_seconds_padded h m sec ms n k :
  digits h -> digits m -> digits sec -> digits ms ->
  time_to_seconds (blanks n ++ timestamp h m sec ms ++ blanks k)
  = Ok (seconds_of h m sec ms).
Proof.
  intros Hh Hm Hs Hms. unfold time_to_seconds, timestamp.
  assert (C : forall x, digits x -> ~ In (ascii_of_nat 58) x)
    by (intros x [_ F]; apply digits_no_char; [exact F|lia]).
  assert (K : forall x, digits x -> ~ In (ascii_of_nat 44) x)
    by (intros x [_ F]; apply digits_no_char; [exact F|lia]).
  change (s ":") with [ascii_of_nat 58]. change (s ",") with [ascii_of_nat 44].
  rewrite <- !app_assoc.
  rewrite (app_assoc (blanks n) h).
  rewrite (split_app_sep (ascii_of_nat 58) [] (blanks n ++ h)).
  2: { intros I. apply in_app_or in I as [I | I];
         [revert I; apply blanks_no_char; lia|exact (C h Hh I)]. }
  rewrite (split_app_sep (ascii_of_nat 58) [] m _ (C m Hm)).
  rewrite (split_no_sep (ascii_of_nat 58) []).
  2: { intros I. apply in_app_or in I as [I | I]; [exact (C sec Hs I)|].
       apply in_app_or in I as [[I | []] | I]; [discriminate|].
       apply in_app_or in I as [I | I]; [exact (C ms Hms I)|].
       revert I. apply blanks_no_char; lia. }
  rewrite (split_app_sep (ascii_of_nat 44) [] sec _ (K sec Hs)).
  rewrite (split_no_sep (ascii_of_nat 44) []).
  2: { intros I. apply in_app_or in I as [I | I]; [exact (K ms Hms I)|].
       revert I. apply blanks_no_char; lia. }
  rewrite (py_int_padded_l h n Hh), (py_int_digits m Hm), (py_int_digits sec Hs).
  rewrite (py_int_padded_r ms k Hms). reflexivity.
Qed.

Lemma time_to_seconds_padded_l h m sec ms n :
  digits h -> digits m -> digits sec -> digits ms ->
  time_to_seconds (blanks n ++ timestamp h m sec ms) = Ok (seconds_of h m sec ms).
Proof.
  intros. rewrite <- (time_to_seconds_padded h m sec ms n 0) by assumption.
  cbn [blanks repeat]. now rewrite app_nil_r.
Qed.

Lemma time_to_seconds_padded_r h m sec ms k :
  digits h -> digits m -> digits sec -> digits ms ->
  time_to_seconds (timestamp h m sec ms ++ blanks k) = Ok (seconds_of h m sec ms).
Proof. intros. now apply (time_to_seconds_padded h m sec ms 0 k). Qed.

(** A character that is not a blank is never the start of an arrow. *)
Lemma split_arrow_other c x :
  c <> ascii_of_nat 32 -> split arrow (c :: x) = push c (split arrow x).
Proof.
  intros N. unfold split, arrow. cbn [s list_ascii_of_string split_from starts_with].
  destruct (Ascii.eqb_spec " "%char c) as [E | _]; [|reflexivity].
  exfalso. apply N. now rewrite <- E.
Qed.

(** Nor is a blank that is not followed by a dash. *)
Lemma split_arrow_blank d x :
  d <> ascii_of_nat 45 ->
  split arrow (ascii_of_nat 32 :: d :: x)
  = push (ascii_of_nat 32) (split arrow (d :: x)).
Proof.
  intros N. unfold split, arrow. cbn [s list_ascii_of_string split_from starts_with].
  change (Ascii.eqb " "%char (ascii_of_nat 32)) with true. cbn [andb].
  destruct (Ascii.eqb_spec "-"%char d) as [E | _]; [|reflexivity].
  exfalso. apply N. now rewrite <- E.
Qed.

Lemma push_cons c p ps : push c (p :: ps) = (c :: p) :: ps.
Proof. reflexivity. Qed.

Lemma split_arrow_blanks_then n d x parts :
  d <> ascii_of_nat 45 -> d <> ascii_of_nat 32 ->
  split arrow (d :: x) = (d :: hd [] parts) :: tl parts ->
  split arrow (blanks n ++ d :: x) = (blanks n ++ d :: hd [] parts) :: tl parts.
Proof.
  intros Nd Ns E. induction n as [|n IH]; [exact E|].
  unfold blanks in *. cbn [repeat app]. destruct n as [|n].
  - cbn [repeat app] in *. rewrite (split_arrow_blank d x Nd), E. reflexivity.
  - cbn [repeat app] in *. rewrite split_arrow_blank by discriminate.
    rewrite IH. reflexivity.
Qed.

Lemma split_arrow_padded x y n k :
  x <> [] -> y <> [] ->
  ~ In (ascii_of_nat 32) x -> ~ In (ascii_of_nat 32) y ->
  ~ In (ascii_of_nat 45) y ->
  split arrow (x ++ blanks n ++ arrow ++ blanks k ++ y)
  = [x ++ blanks n; blanks k ++ y].
Proof.
  intros Nx Ny Sx Sy Dy.
  assert (Y : split arrow (blanks k ++ y) = [blanks k ++ y]).
  { destruct y as [|d y]; [contradiction|].
    apply (split_arrow_blanks_then k d y [y]).
    - intros ->. apply Dy. now left.
    - intros ->. apply Sy. now left.
    - cbn [hd tl]. apply (split_no_sep (ascii_of_nat 32) (s "--> ")). exact Sy. }
  assert (B : forall n, split arrow (blanks n ++ arrow ++ blanks k ++ y)
                        = [blanks n; blanks k ++ y]).
  { clear n. induction n as [|n IH].
    - cbn [blanks repeat app]. unfold split, arrow.
      cbn [s list_ascii_of_string app split_from starts_with List.length Nat.sub].
      change (Ascii.eqb " "%char " "%char) with true.
      change (Ascii.eqb "-"%char "-"%char) with true.
      change (Ascii.eqb ">"%char ">"%char) with true. cbn [andb].
      f_equal. exact Y.
    - unfold blanks in *. cbn [repeat app].
      destruct n as [|n].
      + cbn [repeat app] in *. unfold arrow at 2. cbn [s list_ascii_of_string app].
        rewrite split_arrow_blank by discriminate.
        change (" "%char :: "-"%char :: "-"%char :: ">"%char :: " "%char
                  :: repeat (ascii_of_nat 32) k ++ y)
          with (arrow ++ repeat (ascii_of_nat 32) k ++ y).
        rewrite IH. reflexivity.
      + cbn [repeat app] in *. rewrite split_arrow_blank by discriminate.
        rewrite IH. reflexivity. }
  induction x as [|c x IH]; [contradiction|].
  cbn [app]. rewrite split_arrow_other by (intros ->; apply Sx; now left).
  destruct x as [|c' x].
  - cbn [app]. rewrite B. reflexivity.
  - rewrite IH; [reflexivity|discriminate|]. intros I. apply Sx. now right.
Qed.

(** X7. Blanks around the arrow are tolerated: a time range whose two
    timestamps [HH:MM:SS,mmm] are separated by the arrow with any number of
    further blanks on either side converts to the same two times, because
    [int] ignores the blanks left on the fields next to the arrow. *)
Theorem blanks_around_arrow_tolerated (t1 t2 : stamp) (n k : nat) :
  stamp_ok t1 -> stamp_ok t2 ->
  parse_time_range (stamp_text t1 ++ blanks n ++ arrow ++ blanks k ++ stamp_text t2)
  = Ok (stamp_seconds t1, stamp_seconds t2).
Proof.
  intros H1 H2.
  destruct (stamp_ok_digits _ H1) as (A1 & A2 & A3 & A4).
  destruct (stamp_ok_digits _ H2) as (B1 & B2 & B3 & B4).
  unfold parse_time_range, stamp_text.
  rewrite split_arrow_padded.
  - rewrite time_to_seconds_padded_r, time_to_seconds_padded_l by assumption.
    reflexivity.
  - unfold timestamp. destruct A1 as [N _]. destruct (hh t1); [contradiction|discriminate].
  - unfold timestamp. destruct B1 as [N _]. destruct (hh t2); [contradiction|discriminate].
  - now apply timestamp_no_space.
  - now apply timestamp_no_space.
  - destruct B1 as [_ F1], B2 as [_ F2], B3 as [_ F3], B4 as [_ F4].
    unfold timestamp. intros I.
    repeat (apply in_app_or in I as [I | I]);
      try (revert I; apply digits_no_char; [assumption|lia]);
      destruct I as [I | []]; discriminate.
Qed.

(** ** Concrete runs for the further properties *)

Lemma stamp_1s_ok : stamp_ok stamp_1s.
Proof. repeat split; repeat constructor. Qed.

Lemma stamp_2s_ok : stamp_ok stamp_2s.
Proof. repeat split; repeat constructor. Qed.

Lemma stamp_4s_ok : stamp_ok stamp_4s.
Proof. repeat split; repeat constructor. Qed.

Lemma block_one_ok : block_ok block_one.
Proof.
  unfold block_ok. split; [reflexivity|]. split; [reflexivity|].
  split; [vm_compute; intuition discriminate|].
  split; [exact stamp_1s_ok|]. split; [exact stamp_2s_ok|].
  split; [discriminate|]. split; [|reflexivity].
  repeat constructor; try discriminate; vm_compute; intuition discriminate.
Qed.

Lemma block_two_ok : block_ok block_two.
Proof.
  unfold block_ok. split; [reflexivity|]. split; [reflexivity|].
  split; [vm_compute; intuition discriminate|].
  split; [exact stamp_2s_ok|]. split; [exact stamp_4s_ok|].
  split; [discriminate|]. split; [|reflexivity].
  repeat constructor; try discriminate; vm_compute; intuition discriminate.
Qed.

Lemma blank_content_blank : blank blank_content.
Proof. repeat constructor. Qed.

(** X1 on a file of three blanks and two line feeds, with [chunk_size = 0]. *)
Lemma blank_file_completes_witness :
  srt_to_audio blank_world (s "in.srt") (s "out") (s "v2/en_speaker_6") 0
  = ([EExists (s "in.srt"); EMakedirs (s "out"); ERead (s "in.srt"); EPrintComplete],
     Ok tt).
Proof.
  apply (blank_file_completes blank_world (s "in.srt") (s "out") (s "v2/en_speaker_6")
           0 blank_content).
  - repeat split.
  - exact blank_content_blank.
Defined.

(** X2 on the file of two blocks. *)
Lemma parsed_cues_are_clean_witness :
  exists cues,
    parse_content two_block_srt = Ok cues
    /\ Forall clean_cue cues
    /\ (List.length cues <= 2)%nat.
Proof.
  eexists. split; [vm_compute; reflexivity|].
  refine (parsed_cues_are_clean two_block_srt _ _). vm_compute. reflexivity.
Defined.

(** X3 on two blocks, with a line feed at the end of the file. *)
Lemma standard_file_parses_witness :
  parse_content (srt_text [block_one; block_two] ++ [nl])
  = Ok [ {| idx := s "1"; start_time := stamp_seconds stamp_1s;
            end_time := stamp_seconds stamp_2s; text := s "Hello there." |};
         {| idx := s "2"; start_time := stamp_seconds stamp_2s;
            end_time := stamp_seconds stamp_4s; text := s "- Who is it? - Me." |} ].
Proof.
  refine (standard_file_parses [block_one; block_two] [] [nl] _ _ _).
  - constructor; [exact block_one_ok|]. constructor; [exact block_two_ok|]. constructor.
  - constructor.
  - repeat constructor.
Defined.

(** X4 at [1:75:90,5]: 1 h, 75 min, 90 s and 5 ms. *)
Lemma time_to_seconds_any_width_witness :
  exists t,
    time_to_seconds (s "1:75:90,5") = Ok t
    /\ (t * 1000 == inject_Z 8190005)%Q.
Proof.
  destruct time_to_seconds_any_width as [W _].
  refine (W (s "1") (s "75") (s "90") (s "5") _ _ _ _);
    (split; [split; [discriminate|repeat constructor]|simpl; lia]).
Defined.


(** X6 with a synthesiser that fails at the second cue. *)
Lemma first_failure_ends_run_witness :
  timeline mute_world (s "out") (s "v") 10 ([blank_cue] ++ hi_cue :: [hi_cue])
  = ([] ++ [EGenerate (s "hi") (s "v")], Raise (ExternalError 1)).
Proof.
  destruct (first_failure_ends_run mute_world (s "out") (s "v") 10 [blank_cue] hi_cue
              [hi_cue] [] {| final_audio := []; previous_end_time := 0; part_number := 1 |}
              eq_refl) as (_ & G).
  exact (proj1 (G (ExternalError 1) eq_refl eq_refl)).
Defined.

(** X7 with three blanks before the arrow and two after it. *)
Lemma blanks_around_arrow_tolerated_witness :
  parse_time_range (s "00:00:01,000    -->   00:00:02,500")
  = Ok (stamp_seconds stamp_1s, stamp_seconds stamp_2s).
Proof.
  exact (blanks_around_arrow_tolerated stamp_1s stamp_2s 3 2 stamp_1s_ok stamp_2s_ok).
Defined.

(** X8 on the file of two blocks, each cue exported on its own. *)
Lemma every_parsed_cue_is_synthesised_witness :
  exists tr,
    srt_to_audio two_block_world (s "in.srt") (s "out") (s "v2/en_speaker_6") 1
    = (tr, Ok tt)
    /\ generate_calls tr
       = [(s "hi", s "v2/en_speaker_6"); (s "yo", s "v2/en_speaker_6")].
Proof.
  refine (every_parsed_cue_is_synthesised two_block_world (s "in.srt") (s "out")
            (s "v2/en_speaker_6") 1 two_block_srt
            [ {| idx := s "1"; start_time := 0.000; end_time := 0.001; text := s "hi" |};
              {| idx := s "2"; start_time := 0.003; end_time := 0.004; text := s "yo" |} ]
            _ _ _ _).
  - repeat split.
  - split; intros; [eexists|]; reflexivity.
  - discriminate.
  - vm_compute. reflexivity.
Defined.

(** X9 with three cues in chunks of two. *)
Lemma exported_audio_is_one_pass_witness :
  exists tr dropped,
    timeline demo_world (s "out") (s "v") 2 [hi_cue; hi_cue; hi_cue] = (tr, Ok tt)
    /\ List.concat (map snd (exports tr)) ++ dropped
       = run_audio demo_world (s "v") 0 0 [hi_cue; hi_cue; hi_cue]
    /\ (0 <? audio_len 24000 dropped)%Z = false.
Proof.
  exact (exported_audio_is_one_pass demo_world (s "out") (s "v") 2
           [hi_cue; hi_cue; hi_cue] demo_world_reliable ltac:(lia)).
Defined.

(** X11 with one spoken cue. *)
Lemma zero_chunk_size_raises_witness :
  timeline demo_world (s "out") (s "v") 0 [hi_cue]
  = ([EGenerate (s "hi") (s "v")], Raise ZeroDivisionError).
Proof.
  refine (proj1 (zero_chunk_size_raises demo_world (s "out") (s "v") hi_cue [] _)).
  right. eexists. reflexivity.
Defined.


